(** * js-jose: the JWE Encrypter (src/lib/jose-jwe-encrypt.js)

    A shallow embedding of [JoseJWE.Encrypter] and of the part of the
    JavaScript run time it relies on: ordinary objects used as string maps,
    [JSON.stringify] on such objects, and promises ([then], [Promise.all],
    the microtask queue).  The Cryptographer and the [Utils] helpers are
    collaborators that live outside the file; they are interfaces here. *)

From Stdlib Require Import String Ascii List Bool NArith Arith Lia.
From Stdlib Require Import Strings.Byte.
Import ListNotations.
Open Scope string_scope.
Open Scope list_scope.
Open Scope nat_scope.

(** String concatenation, JavaScript's [+] on strings. *)
Infix "+++" := String.append (at level 60, right associativity).

(* ===================================================================== *)
(** ** Strings and bytes *)

Definition bytes := list byte.

Definition chr (n : nat) : string := String (ascii_of_nat n) EmptyString.

(** The three characters that cannot be written inside a literal here. *)
Definition dquote : string := Eval cbv in chr 34.
Definition backslash : string := Eval cbv in chr 92.
Definition dot_char : ascii := Eval cbv in ascii_of_nat 46.

(** [s.split(".")] *)
Fixpoint split_dot_aux (cur : string) (s : string) : list string :=
  match s with
  | EmptyString => [cur]
  | String c s' =>
      if Ascii.eqb c dot_char
      then cur :: split_dot_aux EmptyString s'
      else split_dot_aux (cur +++ String c EmptyString) s'
  end.

Definition split_dot (s : string) : list string := split_dot_aux EmptyString s.

(** Number of "." characters of a string. *)
Fixpoint count_dots (s : string) : nat :=
  match s with
  | EmptyString => 0
  | String c s' => (if Ascii.eqb c dot_char then 1 else 0) + count_dots s'
  end.

Definition dot_free (s : string) : Prop := count_dots s = 0.

(* ===================================================================== *)
(** ** Ordinary JavaScript objects holding string properties

    [userHeaders] and the per-call [headers] object are plain objects whose
    property values are strings (addHeader's [@param v String]).  An object
    is the list of its own enumerable properties in property order: array
    index keys in ascending numeric order first, then the other keys in the
    order of their creation.  [for (var i in o)] and [JSON.stringify] both
    follow that order. *)

Module JSObject.

Definition obj := list (string * string).

Definition empty : obj := [].

Definition is_digit (c : ascii) : bool :=
  let n := nat_of_ascii c in (48 <=? n) && (n <=? 57).

Fixpoint digits_value (acc : N) (s : string) : option N :=
  match s with
  | EmptyString => Some acc
  | String c s' =>
      if is_digit c
      then digits_value (acc * 10 + N.of_nat (nat_of_ascii c - 48)) s'
      else None
  end.

(** A key is an array index when it is the canonical decimal form of an
    integer below 2^32 - 1. *)
Definition array_index (k : string) : option N :=
  match k with
  | EmptyString => None
  | String c rest =>
      if Ascii.eqb c "0"%char
      then match rest with EmptyString => Some 0%N | _ => None end
      else match digits_value 0 k with
           | Some n => if (n <? 4294967295)%N then Some n else None
           | None => None
           end
  end.

(** [o[k]] for an own property; [None] is [undefined]. *)
Fixpoint get (o : obj) (k : string) : option string :=
  match o with
  | [] => None
  | (k0, v0) :: r => if String.eqb k0 k then Some v0 else get r k
  end.

Fixpoint set_named (k v : string) (o : obj) : obj :=
  match o with
  | [] => [(k, v)]
  | (k0, v0) :: r =>
      if String.eqb k0 k then (k, v) :: r else (k0, v0) :: set_named k v r
  end.

Fixpoint set_index (k : string) (n : N) (v : string) (o : obj) : obj :=
  match o with
  | [] => [(k, v)]
  | (k0, v0) :: r =>
      match array_index k0 with
      | Some m =>
          if String.eqb k0 k then (k, v) :: r
          else if (m <? n)%N then (k0, v0) :: set_index k n v r
          else (k, v) :: (k0, v0) :: r
      | None => (k, v) :: (k0, v0) :: r
      end
  end.

(** [o[k] = v] with [v] a string.  Assigning a string to [__proto__]
    reaches the setter inherited from [Object.prototype], which ignores
    values that are neither objects nor [null]: no property is created. *)
Definition set (o : obj) (k v : string) : obj :=
  if String.eqb k "__proto__" then o
  else match array_index k with
       | Some n => set_index k n v o
       | None => set_named k v o
       end.

(** The keys [for (var i in o)] visits, in order. *)
Definition keys (o : obj) : list string := map fst o.

(** The members of an object that have a given key. *)
Definition members (k : string) (o : obj) : obj :=
  filter (fun kv => String.eqb (fst kv) k) o.

(** [k'] may follow [k] in property order: an array index only follows
    smaller array indices. *)
Definition later (k k' : string) : Prop :=
  match array_index k' with
  | Some n' => exists n, array_index k = Some n /\ (n < n')%N
  | None => True
  end.

(** Property order, with no key twice. *)
Fixpoint ordered (o : obj) : Prop :=
  match o with
  | [] => True
  | (k, _) :: r =>
      (forall k', In k' (keys r) -> k' <> k /\ later k k') /\ ordered r
  end.

End JSObject.

(* ===================================================================== *)
(** ** JSON.stringify on an object with string properties *)

Module JSON.

Definition hex_digit (n : nat) : string :=
  String (ascii_of_nat (if n <? 10 then 48 + n else 87 + n)) EmptyString.

(** QuoteJSONString, one code unit. *)
Definition escape_char (c : ascii) : string :=
  let n := nat_of_ascii c in
  if n =? 34 then backslash +++ dquote
  else if n =? 92 then backslash +++ backslash
  else if n =? 8 then backslash +++ "b"
  else if n =? 12 then backslash +++ "f"
  else if n =? 10 then backslash +++ "n"
  else if n =? 13 then backslash +++ "r"
  else if n =? 9 then backslash +++ "t"
  else if n <? 32 then backslash +++ "u00" +++ hex_digit (n / 16) +++ hex_digit (n mod 16)
  else String c EmptyString.

Fixpoint escape (s : string) : string :=
  match s with
  | EmptyString => EmptyString
  | String c s' => escape_char c +++ escape s'
  end.

Definition quote (s : string) : string := dquote +++ escape s +++ dquote.

Definition member (kv : string * string) : string :=
  quote (fst kv) +++ ":" +++ quote (snd kv).

Definition stringify (o : JSObject.obj) : string :=
  "{" +++ String.concat "," (map member o) +++ "}".

End JSON.

(* ===================================================================== *)
(** ** The collaborators

    [Utils] (base64url and string/byte conversion) and the Cryptographer
    are not part of the file under verification.  The Encrypter uses the
    methods below and nothing else of them. *)

Record Utils := {
  Base64Url_encode : string -> string;
  Base64Url_encodeArray : bytes -> string;
  arrayFromString : string -> bytes
}.

(** Keys are opaque to the Encrypter; rejection reasons are passed on
    untouched. *)
Definition CryptoKey := nat.
Definition error := string.

(** The synchronous methods of a Cryptographer.  [createIV n] is the IV
    handed out at the [n]-th request (the Cryptographer's own randomness).
    [createCek], [wrapCek] and [encrypt] return promises that the
    Cryptographer settles later: they appear as events, see [event]. *)
Record Cryptographer := {
  getKeyEncryptionAlgorithm : string;
  getContentEncryptionAlgorithm : string;
  createIV : nat -> bytes
}.

(* ===================================================================== *)
(** ** Values, promises and the microtask queue *)

Definition pid := nat.
Definition loc := nat.

(** The object a Cryptographer's [encrypt] resolves with, [{cipher, tag}],
    to which the Encrypter later adds [header] and [iv]. *)
Record EncryptData := {
  cipher : bytes;
  tag : bytes;
  header : option string;
  iv : option bytes
}.

#[local] Set Warnings "-register-all".

Inductive value :=
| VKey (k : CryptoKey)
| VBytes (b : bytes)
| VObject (r : EncryptData)
| VString (s : string)
| VArray (vs : list value)
| VPromise (p : pid).

Definition settlement := (value + error)%type.

Inductive pstate :=
| Pending
| Fulfilled (v : value)
| Rejected (e : error).

Definition settled (r : settlement) : pstate :=
  match r with inl v => Fulfilled v | inr e => Rejected e end.

(** The three function expressions of [encrypt] that are passed to [then],
    each with the variables it closes over. *)
Inductive callback :=
| CbWrapCek
| CbAttach (jwe_protected_header : string) (iv0 : bytes)
| CbAssemble.

Inductive reaction :=
| RThen (cb : callback) (derived : pid)
| RAllElement (index : nat) (all : pid)
| RAdopt (target : pid).

Inductive job :=
| JReact (r : reaction) (s : settlement)
| JThenable (thenable target : pid).

(** Who settles a promise: the caller (the recipient key), one of the
    Cryptographer's asynchronous methods, or the promise machinery itself. *)
Inductive origin := OCaller | OCreateCek | OWrapCek | OEncrypt | ODerived.

Definition origin_eqb (a b : origin) : bool :=
  match a, b with
  | OCaller, OCaller | OCreateCek, OCreateCek | OWrapCek, OWrapCek
  | OEncrypt, OEncrypt | ODerived, ODerived => true
  | _, _ => false
  end.

Record promise := {
  state : pstate;
  reactions : list reaction;
  elements : list (option value);   (* the values array of a Promise.all *)
  source : origin
}.

(** What an observer of the call can see, in order: the header map being
    copied, each Cryptographer method being invoked, and each external
    promise being settled.  [LOutsideContract] marks a callback that was
    handed a value the Cryptographer contract rules out. *)
Inductive label :=
| LCreateCek (p : pid)
| LSnapshot (copied : JSObject.obj)
| LGetKeyEncryptionAlgorithm
| LGetContentEncryptionAlgorithm
| LCreateIV (iv0 : bytes)
| LEncrypt (iv0 aad : bytes) (cek_promise : pid) (plain_text : bytes) (p : pid)
| LWrapCek (cek key : CryptoKey) (p : pid)
| LSettled (o : origin) (r : settlement)
| LOutsideContract.

Record Async := {
  store : list promise;
  queue : list job;
  trace : list label;
  ivs_drawn : nat
}.

(** State-passing computations. *)
Definition ST (S A : Type) : Type := S -> A * S.

Definition ret {S A} (a : A) : ST S A := fun s => (a, s).

Definition bind {S A B} (m : ST S A) (f : A -> ST S B) : ST S B :=
  fun s => let (a, s') := m s in f a s'.

Definition exec {S A} (m : ST S A) (s : S) : S := snd (m s).

Notation "x <- m ;; f" := (bind m (fun x => f))
  (at level 61, m at next level, right associativity).
Notation "m ;; f" := (bind m (fun _ => f))
  (at level 61, right associativity).

Fixpoint update {A} (i : nat) (f : A -> A) (l : list A) : list A :=
  match l, i with
  | [], _ => []
  | x :: r, 0 => f x :: r
  | x :: r, S j => x :: update j f r
  end.

Definition promise_state (A : Async) (p : pid) : pstate :=
  match nth_error (store A) p with
  | Some c => state c
  | None => Pending
  end.

Definition with_store (f : list promise -> list promise) : ST Async unit :=
  fun A => (tt, {| store := f (store A); queue := queue A;
                   trace := trace A; ivs_drawn := ivs_drawn A |}).

Definition enqueue (js : list job) : ST Async unit :=
  fun A => (tt, {| store := store A; queue := queue A ++ js;
                   trace := trace A; ivs_drawn := ivs_drawn A |}).

Definition log (l : label) : ST Async unit :=
  fun A => (tt, {| store := store A; queue := queue A;
                   trace := trace A ++ [l]; ivs_drawn := ivs_drawn A |}).

Definition lookup (p : pid) : ST Async (option promise) :=
  fun A => (nth_error (store A) p, A).

(** A new pending promise awaiting [n] elements ([n] is 0 unless it is the
    result of [Promise.all]). *)
Definition new_promise (src : origin) (n : nat) : ST Async pid :=
  fun A =>
    (length (store A),
     {| store := store A ++ [{| state := Pending; reactions := [];
                                elements := repeat None n; source := src |}];
        queue := queue A; trace := trace A; ivs_drawn := ivs_drawn A |}).

(** FulfillPromise / RejectPromise: a pending promise takes its final
    state and one job per registered reaction is queued; a promise that is
    already settled ignores the call. *)
Definition settle (p : pid) (r : settlement) : ST Async unit :=
  c <- lookup p ;;
  match c with
  | Some c =>
      match state c with
      | Pending =>
          with_store (update p (fun _ =>
            {| state := settled r; reactions := [];
               elements := elements c; source := source c |})) ;;
          enqueue (map (fun x => JReact x r) (reactions c))
      | _ => ret tt
      end
  | None => ret tt
  end.

(** The resolve function of a promise: a promise given as the value is
    adopted in a later job, any other value fulfils. *)
Definition resolve (p : pid) (v : value) : ST Async unit :=
  match v with
  | VPromise q => enqueue [JThenable q p]
  | _ => settle p (inl v)
  end.

(** PerformPromiseThen: register a reaction, or queue its job at once when
    the promise is already settled. *)
Definition subscribe (p : pid) (r : reaction) : ST Async unit :=
  c <- lookup p ;;
  match c with
  | Some c =>
      match state c with
      | Pending =>
          with_store (update p (fun c =>
            {| state := state c; reactions := reactions c ++ [r];
               elements := elements c; source := source c |}))
      | Fulfilled v => enqueue [JReact r (inl v)]
      | Rejected e => enqueue [JReact r (inr e)]
      end
  | None => ret tt
  end.

(** [p.then(cb)] *)
Definition promise_then (p : pid) (cb : callback) : ST Async pid :=
  q <- new_promise ODerived 0 ;;
  subscribe p (RThen cb q) ;;
  ret q.

Fixpoint subscribe_elements (a : pid) (i : nat) (ps : list pid) : ST Async unit :=
  match ps with
  | [] => ret tt
  | p :: ps' => subscribe p (RAllElement i a) ;; subscribe_elements a (S i) ps'
  end.

(** [Promise.all(ps)] for an array of promises. *)
Definition Promise_all (ps : list pid) : ST Async pid :=
  a <- new_promise ODerived (length ps) ;;
  match ps with
  | [] => settle a (inl (VArray []))
  | _ => subscribe_elements a 0 ps
  end ;;
  ret a.

Fixpoint collect (l : list (option value)) : option (list value) :=
  match l with
  | [] => Some []
  | Some v :: r => match collect r with Some vs => Some (v :: vs) | None => None end
  | None :: _ => None
  end.

(** The resolve-element function of [Promise.all]: store the value, and
    resolve with the array once no element is missing. *)
Definition all_element (a : pid) (i : nat) (v : value) : ST Async unit :=
  with_store (update a (fun c =>
    {| state := state c; reactions := reactions c;
       elements := update i (fun _ => Some v) (elements c);
       source := source c |})) ;;
  c <- lookup a ;;
  match c with
  | Some c =>
      match collect (elements c) with
      | Some vs => resolve a (VArray vs)
      | None => ret tt
      end
  | None => ret tt
  end.

(* ===================================================================== *)
(** ** JoseJWE.Encrypter *)

(** [cryptographer] and [key_promise] are the constructor's arguments;
    [userHeaders] refers to the header object on the heap. *)
Record Encrypter := {
  cryptographer : Cryptographer;
  key_promise : pid;
  userHeaders : loc
}.

Record World := {
  this : Encrypter;
  heap : list JSObject.obj;
  async : Async
}.

(** Run a computation on the promise machinery inside the world. *)
Definition lift {A} (m : ST Async A) : ST World A :=
  fun W => let (a, A') := m (async W) in
           (a, {| this := this W; heap := heap W; async := A' |}).

Definition self : ST World Encrypter := fun W => (this W, W).

(** [{}] *)
Definition alloc : ST World loc :=
  fun W => (length (heap W),
            {| this := this W; heap := heap W ++ [JSObject.empty];
               async := async W |}).

Definition read (l : loc) : ST World JSObject.obj :=
  fun W => (nth l (heap W) JSObject.empty, W).

Definition write (l : loc) (f : JSObject.obj -> JSObject.obj) : ST World unit :=
  fun W => (tt, {| this := this W; heap := update l f (heap W);
                   async := async W |}).

(** [for (var i in src) dst[i] = src[i];] *)
Definition copy_props (src dst : JSObject.obj) : JSObject.obj :=
  fold_left
    (fun h i => match JSObject.get src i with
                | Some v => JSObject.set h i v
                | None => h
                end)
    (JSObject.keys src) dst.

Section Encrypter.

Variable Utils_ : Utils.

(** The asynchronous methods of the Cryptographer, seen from the
    Encrypter: the invocation is observed and a promise comes back.  The
    promise is pending when the method returns; one that a Cryptographer
    returns already settled is taken as settled by the first event after
    the call, which queues its reactions then rather than during the
    call. *)
Definition createCek : ST Async pid :=
  p <- new_promise OCreateCek 0 ;;
  log (LCreateCek p) ;;
  ret p.

Definition wrapCek (cek key : CryptoKey) : ST Async pid :=
  p <- new_promise OWrapCek 0 ;;
  log (LWrapCek cek key p) ;;
  ret p.

Definition cryptographer_encrypt (iv0 aad : bytes) (cek_promise : pid)
    (plain_text : bytes) : ST Async pid :=
  p <- new_promise OEncrypt 0 ;;
  log (LEncrypt iv0 aad cek_promise plain_text p) ;;
  ret p.

Definition cryptographer_createIV (c : Cryptographer) : ST Async bytes :=
  fun A =>
    let iv0 := createIV c (ivs_drawn A) in
    (iv0, {| store := store A; queue := queue A;
             trace := trace A ++ [LCreateIV iv0];
             ivs_drawn := S (ivs_drawn A) |}).

(** The body of each function expression passed to [then], on the
    arguments the Cryptographer contract allows; [None] on any other. *)
Definition run_callback (cb : callback) (v : value) : ST Async (option value) :=
  match cb with
  | CbWrapCek =>
      (* function (all) { var key = all[0]; var cek = all[1];
                          return this.cryptographer.wrapCek(cek, key); } *)
      match v with
      | VArray [VKey key; VKey cek] =>
          p <- wrapCek cek key ;; ret (Some (VPromise p))
      | _ => ret None
      end
  | CbAttach jwe_protected_header iv0 =>
      (* function (r) { r.header = jwe_protected_header; r.iv = iv; return r; } *)
      match v with
      | VObject r =>
          ret (Some (VObject {| cipher := cipher r; tag := tag r;
                                header := Some jwe_protected_header;
                                iv := Some iv0 |}))
      | _ => ret None
      end
  | CbAssemble =>
      (* function (all) { var encrypted_cek = all[0]; var data = all[1];
                          return data.header + "." + ... } *)
      match v with
      | VArray [VBytes encrypted_cek; VObject data] =>
          match header data, iv data with
          | Some data_header, Some data_iv =>
              ret (Some (VString
                (data_header +++ "." +++
                 Base64Url_encodeArray Utils_ encrypted_cek +++ "." +++
                 Base64Url_encodeArray Utils_ data_iv +++ "." +++
                 Base64Url_encodeArray Utils_ (cipher data) +++ "." +++
                 Base64Url_encodeArray Utils_ (tag data))))
          | _, _ => ret None
          end
      | _ => ret None
      end
  end.

(** One microtask.  A [then] without rejection handler passes a
    rejection on to the derived promise. *)
Definition run_job (j : job) : ST Async unit :=
  match j with
  | JReact (RThen cb q) (inl v) =>
      r <- run_callback cb v ;;
      match r with
      | Some x => resolve q x
      | None => log LOutsideContract
      end
  | JReact (RThen _ q) (inr e) => settle q (inr e)
  | JReact (RAllElement i a) (inl v) => all_element a i v
  | JReact (RAllElement _ a) (inr e) => settle a (inr e)
  | JReact (RAdopt t) (inl v) => resolve t v
  | JReact (RAdopt t) (inr e) => settle t (inr e)
  | JThenable q t => subscribe q (RAdopt t)
  end.

(** The microtask at the head of the queue runs; with an empty queue
    nothing happens. *)
Definition microtask (A : Async) : Async :=
  match queue A with
  | [] => A
  | j :: rest =>
      exec (run_job j)
        {| store := store A; queue := rest; trace := trace A;
           ivs_drawn := ivs_drawn A |}
  end.

(** [new JoseJWE.Encrypter(cryptographer, key_promise)]: the new object,
    and the heap with its empty [userHeaders]. *)
Definition JoseJWE_Encrypter (c : Cryptographer) (kp : pid)
    (H : list JSObject.obj) : Encrypter * list JSObject.obj :=
  ({| cryptographer := c; key_promise := kp; userHeaders := length H |},
   H ++ [JSObject.empty]).

(** [this.userHeaders[k] = v;] *)
Definition addHeader (k v : string) : ST World unit :=
  that <- self ;;
  write (userHeaders that) (fun o => JSObject.set o k v).

Definition encryptPlainText (cek_promise : pid) (plain_text : string)
    : ST World pid :=
  self_ <- self ;;
  (* Create header *)
  headers <- alloc ;;
  src <- read (userHeaders self_) ;;
  lift (log (LSnapshot src)) ;;
  write headers (copy_props src) ;;
  lift (log LGetKeyEncryptionAlgorithm) ;;
  write headers (fun o =>
    JSObject.set o "alg" (getKeyEncryptionAlgorithm (cryptographer self_))) ;;
  lift (log LGetContentEncryptionAlgorithm) ;;
  write headers (fun o =>
    JSObject.set o "enc" (getContentEncryptionAlgorithm (cryptographer self_))) ;;
  final <- read headers ;;
  let jwe_protected_header := Base64Url_encode Utils_ (JSON.stringify final) in
  (* Create the IV *)
  iv0 <- lift (cryptographer_createIV (cryptographer self_)) ;;
  (* Create the AAD *)
  let aad := arrayFromString Utils_ jwe_protected_header in
  let plain_text := arrayFromString Utils_ plain_text in
  p <- lift (cryptographer_encrypt iv0 aad cek_promise plain_text) ;;
  lift (promise_then p (CbAttach jwe_protected_header iv0)).

Definition encrypt (plain_text : string) : ST World pid :=
  that <- self ;;
  (* Create a CEK key *)
  cek_promise <- lift createCek ;;
  (* Key & Cek allows us to create the encrypted_cek *)
  both <- lift (Promise_all [key_promise that; cek_promise]) ;;
  encrypted_cek <- lift (promise_then both CbWrapCek) ;;
  (* Cek allows us to encrypy the plain text *)
  enc_promise <- encryptPlainText cek_promise plain_text ;;
  (* Once we have all the promises, we can base64 encode all the pieces. *)
  pieces <- lift (Promise_all [encrypted_cek; enc_promise]) ;;
  lift (promise_then pieces CbAssemble).

(* ------------------------------------------------------------------- *)
(** *** Sessions

    What happens around a call, in any order and at any moment: the
    caller adds a header; the owner of a pending promise settles it (the
    payload has the type the Cryptographer contract gives it); the next
    microtask runs.  A promise that a Cryptographer method returns
    already settled is one settled before the next microtask. *)
Inductive event :=
| KeyResolved (k : CryptoKey)
| KeyRejected (e : error)
| CekResolved (k : CryptoKey)
| CekRejected (e : error)
| WrapResolved (wrapped : bytes)
| WrapRejected (e : error)
| EncryptResolved (cipher0 tag0 : bytes)
| EncryptRejected (e : error)
| Microtask
| CallAddHeader (k v : string).

Definition delivery (ev : event) : option (origin * settlement) :=
  match ev with
  | KeyResolved k => Some (OCaller, inl (VKey k))
  | KeyRejected e => Some (OCaller, inr e)
  | CekResolved k => Some (OCreateCek, inl (VKey k))
  | CekRejected e => Some (OCreateCek, inr e)
  | WrapResolved b => Some (OWrapCek, inl (VBytes b))
  | WrapRejected e => Some (OWrapCek, inr e)
  | EncryptResolved c t =>
      Some (OEncrypt, inl (VObject {| cipher := c; tag := t;
                                      header := None; iv := None |}))
  | EncryptRejected e => Some (OEncrypt, inr e)
  | Microtask => None
  | CallAddHeader _ _ => None
  end.

Fixpoint find_source (o : origin) (i : nat) (l : list promise) : option pid :=
  match l with
  | [] => None
  | c :: r => if origin_eqb (source c) o then Some i else find_source o (S i) r
  end.

(** The owner of a promise settles it, which queues its reactions.
    Settling what does not exist, or is settled already, does nothing. *)
Definition deliver (o : origin) (r : settlement) (A : Async) : Async :=
  match find_source o 0 (store A) with
  | Some p =>
      match promise_state A p with
      | Pending => exec (log (LSettled o r) ;; settle p r) A
      | _ => A
      end
  | None => A
  end.

(** An event as the promise machinery sees it. *)
Definition react (A : Async) (ev : event) : Async :=
  match ev with
  | Microtask => microtask A
  | _ =>
      match delivery ev with
      | Some (o, r) => deliver o r A
      | None => A
      end
  end.

Definition step (W : World) (ev : event) : World :=
  match ev with
  | CallAddHeader k v => exec (addHeader k v) W
  | _ => {| this := this W; heap := heap W; async := react (async W) ev |}
  end.

Definition run_events (l : list event) (W : World) : World :=
  fold_left step l W.

(** A caller holding the (pending) promise of the recipient key constructs
    an Encrypter. *)
Definition boot (c : Cryptographer) : World :=
  let (kp, A) :=
    new_promise OCaller 0
      {| store := []; queue := []; trace := []; ivs_drawn := 0 |} in
  let (e, H) := JoseJWE_Encrypter c kp [] in
  {| this := e; heap := H; async := A |}.

(** Events, one call of [encrypt], more events. *)
Definition session (c : Cryptographer) (before : list event)
    (plain_text : string) (after : list event) : pid * World :=
  let (p, W) := encrypt plain_text (run_events before (boot c)) in
  (p, run_events after W).

(** Enough microtasks for the queue of a call to run empty. *)
Definition patience : list event := repeat Microtask 32.

End Encrypter.

(* ===================================================================== *)
(** ** Reading a session *)

Definition live_headers (W : World) : JSObject.obj :=
  nth (userHeaders (this W)) (heap W) JSObject.empty.

Definition is_addHeader (ev : event) : bool :=
  match ev with CallAddHeader _ _ => true | _ => false end.

Section Readings.

Variables (U : Utils) (C : Cryptographer).

(** The state of the promise [encrypt] returned. *)
Definition result (before : list event) (plain_text : string)
    (after : list event) : pstate :=
  let (p, W) := session U C before plain_text after in
  promise_state (async W) p.

(** What has been observed by the end of the session. *)
Definition observed (before : list event) (plain_text : string)
    (after : list event) : list label :=
  trace (async (snd (session U C before plain_text after))).

(** The header map at the moment [encrypt] is invoked. *)
Definition headers_at_call (before : list event) : JSObject.obj :=
  live_headers (run_events U before (boot C)).

End Readings.

(* ===================================================================== *)
(** ** What the history of settlements determines *)

(** [data.header + "." + encodeArray(encrypted_cek) + "." + ...] *)
Definition compact (U : Utils) (h : string) (wrapped iv0 cipher0 tag0 : bytes)
    : string :=
  h +++ "." +++
  Base64Url_encodeArray U wrapped +++ "." +++
  Base64Url_encodeArray U iv0 +++ "." +++
  Base64Url_encodeArray U cipher0 +++ "." +++
  Base64Url_encodeArray U tag0.

(** The reason of the first rejection in a trace. *)
Fixpoint first_failure (tr : list label) : option error :=
  match tr with
  | [] => None
  | LSettled _ (inr e) :: _ => Some e
  | _ :: r => first_failure r
  end.

(** The reasons of all rejections in a trace. *)
Fixpoint failures (tr : list label) : list error :=
  match tr with
  | [] => []
  | LSettled _ (inr e) :: r => e :: failures r
  | _ :: r => failures r
  end.

Definition is_rejected (s : pstate) : bool :=
  match s with Rejected _ => true | _ => false end.

(** The value a promise of the given origin was fulfilled with. *)
Fixpoint fulfilled_with (o : origin) (tr : list label) : option value :=
  match tr with
  | [] => None
  | LSettled o' (inl v) :: r =>
      if origin_eqb o' o then Some v else fulfilled_with o r
  | _ :: r => fulfilled_with o r
  end.

(** What the trace calls for: no token after a failure (the first failure
    stands for the rejection; which reason the result carries depends on
    the order in which the microtasks run); the token once the wrapped CEK
    and the ciphertext are there; pending otherwise. *)
Definition verdict (U : Utils) (h : string) (iv0 : bytes) (tr : list label)
    : pstate :=
  match first_failure tr with
  | Some e => Rejected e
  | None =>
      match fulfilled_with OWrapCek tr, fulfilled_with OEncrypt tr with
      | Some (VBytes w), Some (VObject d) =>
          Fulfilled (VString (compact U h w iv0 (cipher d) (tag d)))
      | _, _ => Pending
      end
  end.

Definition is_wrap (l : label) : bool :=
  match l with LWrapCek _ _ _ => true | _ => false end.

Definition is_settled (l : label) : bool :=
  match l with LSettled _ _ => true | _ => false end.

Definition is_encrypt (l : label) : bool :=
  match l with LEncrypt _ _ _ _ _ => true | _ => false end.

Definition is_snapshot (l : label) : bool :=
  match l with LSnapshot _ => true | _ => false end.

Definition is_createCek (l : label) : bool :=
  match l with LCreateCek _ => true | _ => false end.

Definition is_outside (l : label) : bool :=
  match l with LOutsideContract => true | _ => false end.

(** An invocation of a Cryptographer method. *)
Definition is_cryptographer_call (l : label) : bool :=
  negb (is_settled l || is_snapshot l || is_outside l).

(** The synchronous part of a call: everything but settlements and
    [wrapCek]. *)
Definition is_sync (l : label) : bool := negb (is_wrap l || is_settled l).

(** Every [wrapCek] in the trace comes after the fulfilment of the
    recipient key and of the CEK, and receives their values. *)
Fixpoint wrap_joined (key cek : option CryptoKey) (tr : list label) : Prop :=
  match tr with
  | [] => True
  | LSettled OCaller (inl (VKey k)) :: r => wrap_joined (Some k) cek r
  | LSettled OCreateCek (inl (VKey c)) :: r => wrap_joined key (Some c) r
  | LWrapCek c k _ :: r => key = Some k /\ cek = Some c /\ wrap_joined key cek r
  | _ :: r => wrap_joined key cek r
  end.

Definition expected_wraps (tr : list label) : list label :=
  match fulfilled_with OCaller tr, fulfilled_with OCreateCek tr with
  | Some (VKey k), Some (VKey c) => [LWrapCek c k 8]
  | _, _ => []
  end.

(** What had been seen of the key and of the CEK at each [wrapCek], and
    what each [wrapCek] was handed. *)
Fixpoint joined_seen (key cek : option CryptoKey) (tr : list label)
    : list (option CryptoKey * option CryptoKey) :=
  match tr with
  | [] => []
  | LSettled OCaller (inl (VKey k)) :: r => joined_seen (Some k) cek r
  | LSettled OCreateCek (inl (VKey c)) :: r => joined_seen key (Some c) r
  | LWrapCek _ _ _ :: r => (key, cek) :: joined_seen key cek r
  | _ :: r => joined_seen key cek r
  end.

Fixpoint joined_args (tr : list label)
    : list (option CryptoKey * option CryptoKey) :=
  match tr with
  | [] => []
  | LWrapCek c k _ :: r => (Some k, Some c) :: joined_args r
  | _ :: r => joined_args r
  end.

(** [createCek] is invoked before the header map is copied, every other
    Cryptographer method after. *)
Fixpoint snapshot_order (copied : bool) (tr : list label) : bool :=
  match tr with
  | [] => true
  | LSettled _ _ :: r => snapshot_order copied r
  | LOutsideContract :: r => snapshot_order copied r
  | LSnapshot _ :: r => negb copied && snapshot_order true r
  | LCreateCek _ :: r => negb copied && snapshot_order copied r
  | _ :: r => copied && snapshot_order copied r
  end.

(** The owners that have settled their promise, in order. *)
Fixpoint settled_origins (tr : list label) : list origin :=
  match tr with
  | [] => []
  | LSettled o _ :: r => o :: settled_origins r
  | _ :: r => settled_origins r
  end.

Fixpoint distinct (l : list origin) : bool :=
  match l with
  | [] => true
  | x :: r => negb (existsb (origin_eqb x) r) && distinct r
  end.

(** The claim that no Cryptographer method is invoked before the header
    map has been copied. *)
Definition snapshot_first (tr : list label) : Prop :=
  forall pre l post,
    tr = pre ++ l :: post ->
    is_cryptographer_call l = true ->
    exists o, In (LSnapshot o) pre.

(** The header object [encryptPlainText] builds from [userHeaders]. *)
Definition header_object (C : Cryptographer) (o : JSObject.obj) : JSObject.obj :=
  JSObject.set
    (JSObject.set (copy_props o JSObject.empty)
       "alg" (getKeyEncryptionAlgorithm C))
    "enc" (getContentEncryptionAlgorithm C).

Definition protected_header (U : Utils) (C : Cryptographer) (o : JSObject.obj)
    : string :=
  Base64Url_encode U (JSON.stringify (header_object C o)).

(** The headers left by a sequence of events, starting from [o]. *)
Definition add_headers (l : list event) (o : JSObject.obj) : JSObject.obj :=
  fold_left
    (fun o ev => match ev with
                 | CallAddHeader k v => JSObject.set o k v
                 | _ => o
                 end) l o.






Section Exploration.

Variable U : Utils.

(** Whether an event finds something to do. *)
Definition effective (A : Async) (ev : event) : bool :=
  match ev with
  | Microtask => match queue A with [] => false | _ => true end
  | _ =>
      match delivery ev with
      | Some (o, _) =>
          match find_source o 0 (store A) with
          | Some p =>
              match promise_state A p with Pending => true | _ => false end
          | None => false
          end
      | None => false
      end
  end.

(** An event without effect; a microtask is without effect when there
    is none. *)
Definition idle (A : Async) (ev : event) : Prop :=
  react U A ev = A /\ (ev = Microtask -> queue A = []).

(** [explored n P R A]: [P] holds of [A] and of every state that events
    lead to from [A], [R] relates each state to its successors, and no
    more than [n] events in a row have an effect. *)
Fixpoint explored (n : nat) (P : Async -> Prop) (R : Async -> Async -> Prop)
    (A : Async) : Prop :=
  P A /\
  match n with
  | 0 => forall ev, idle A ev
  | S n' =>
      forall ev,
        idle A ev \/
        (R A (react U A ev) /\ explored n' P R (react U A ev))
  end.

(** The promise machinery before the call: only the recipient key. *)
Definition before_call (r : option settlement) : Async :=
  {| store := [{| state := match r with Some r => settled r | None => Pending end;
                  reactions := []; elements := []; source := OCaller |}];
     queue := [];
     trace := match r with Some r => [LSettled OCaller r] | None => [] end;
     ivs_drawn := 0 |}.

Definition key_settlement (r : option settlement) : Prop :=
  match r with
  | None => True
  | Some (inl (VKey _)) => True
  | Some (inr _) => True
  | _ => False
  end.

(** The trace grows, and a settled result stays as it is. *)
Definition advances (A A' : Async) : Prop :=
  trace A' = trace A ++ skipn (length (trace A)) (trace A') /\
  (promise_state A 7 = Pending \/ promise_state A' 7 = promise_state A 7).

Variables (h : string) (iv0 aad ptb : bytes) (o : JSObject.obj).

Definition sync_calls : list label :=
  [LCreateCek 1; LSnapshot o; LGetKeyEncryptionAlgorithm;
   LGetContentEncryptionAlgorithm; LCreateIV iv0; LEncrypt iv0 aad 1 ptb 4].

(** The promise machinery when [encrypt] returns: the recipient key
    (promise 0), the CEK (1), [Promise.all([key, cek])] (2) and its
    [then] (3, [encrypted_cek]), the promise of the Cryptographer's
    [encrypt] (4) and its [then] (5, [enc_promise]), the final
    [Promise.all] (6) and its [then] (7, the result). *)
Definition after_call (r : option settlement) : Async :=
  let cell s rs es src :=
    {| state := s; reactions := rs; elements := es; source := src |} in
  {| store :=
       [cell (match r with Some r => settled r | None => Pending end)
             (match r with Some _ => [] | None => [RAllElement 0 2] end)
             [] OCaller;
        cell Pending [RAllElement 1 2] [] OCreateCek;
        cell Pending [RThen CbWrapCek 3] [None; None] ODerived;
        cell Pending [RAllElement 0 6] [] ODerived;
        cell Pending [RThen (CbAttach h iv0) 5] [] OEncrypt;
        cell Pending [RAllElement 1 6] [] ODerived;
        cell Pending [RThen CbAssemble 7] [None; None] ODerived;
        cell Pending [] [] ODerived];
     queue := match r with
              | Some r => [JReact (RAllElement 0 2) r]
              | None => []
              end;
     trace := match r with
              | Some r => LSettled OCaller r :: sync_calls
              | None => sync_calls
              end;
     ivs_drawn := 1 |}.

(** A token is backed by the trace. *)
Definition result_sound (A : Async) : Prop :=
  forall v, promise_state A 7 = Fulfilled v ->
            verdict U h iv0 (trace A) = Fulfilled v.

(** Once the microtasks have run, the result is what the trace calls
    for: rejected after a failure, the verdict otherwise. *)
Definition result_complete (A : Async) : Prop :=
  queue A = [] ->
  match first_failure (trace A) with
  | Some _ => is_rejected (promise_state A 7) = true
  | None => promise_state A 7 = verdict U h iv0 (trace A)
  end.

(** [wrapCek] is invoked at most once, with the values of the key and of
    the CEK, and has been invoked once the microtasks have run. *)
Definition wraps_sound (A : Async) : Prop :=
  filter is_wrap (trace A) = [] \/
  filter is_wrap (trace A) = expected_wraps (trace A).

Definition wraps_complete (A : Async) : Prop :=
  queue A = [] -> filter is_wrap (trace A) = expected_wraps (trace A).

(** What holds in every state after a call. *)
Definition invariant (A : Async) : Prop :=
  result_sound A /\
  result_complete A /\
  filter is_sync (trace A) = sync_calls /\
  wrap_joined None None (trace A) /\
  wraps_sound A /\
  wraps_complete A /\
  snapshot_order false (trace A) = true /\
  distinct (settled_origins (trace A)) = true.

(** The same, as quantities to compare: what a state shows, and what it
    ought to show. *)
Record facts := {
  f_token : pstate;
  f_at_rest : pstate;
  f_rejected : bool;
  f_sync : list label;
  f_joined : list (option CryptoKey * option CryptoKey);
  f_wraps : list label;
  f_wraps_at_rest : list label;
  f_order : bool;
  f_distinct : bool
}.

Definition actual (A : Async) : facts :=
  {| f_token :=
       match promise_state A 7 with
       | Fulfilled v => Fulfilled v
       | _ => Pending
       end;
     f_at_rest :=
       match queue A, first_failure (trace A) with
       | [], None => promise_state A 7
       | _, _ => Pending
       end;
     f_rejected :=
       match queue A, first_failure (trace A) with
       | [], Some _ => is_rejected (promise_state A 7)
       | _, _ => true
       end;
     f_sync := filter is_sync (trace A);
     f_joined := joined_seen None None (trace A);
     f_wraps := filter is_wrap (trace A);
     f_wraps_at_rest :=
       match queue A with
       | [] => filter is_wrap (trace A)
       | _ => []
       end;
     f_order := snapshot_order false (trace A);
     f_distinct := distinct (settled_origins (trace A)) |}.

Definition expected (A : Async) : facts :=
  {| f_token :=
       match promise_state A 7 with
       | Fulfilled _ => verdict U h iv0 (trace A)
       | _ => Pending
       end;
     f_at_rest :=
       match queue A, first_failure (trace A) with
       | [], None => verdict U h iv0 (trace A)
       | _, _ => Pending
       end;
     f_rejected := true;
     f_sync := sync_calls;
     f_joined := joined_args (trace A);
     f_wraps :=
       match filter is_wrap (trace A) with
       | [] => []
       | _ => expected_wraps (trace A)
       end;
     f_wraps_at_rest :=
       match queue A with
       | [] => expected_wraps (trace A)
       | _ => []
       end;
     f_order := true;
     f_distinct := true |}.

Definition as_expected (A : Async) : Prop := actual A = expected A.

Record progress := {
  p_trace : list label;
  p_result : pstate
}.

Definition actual_progress (A A' : Async) : progress :=
  {| p_trace := trace A'; p_result := promise_state A' 7 |}.

Definition expected_progress (A A' : Async) : progress :=
  {| p_trace := trace A ++ skipn (length (trace A)) (trace A');
     p_result :=
       match promise_state A 7 with
       | Pending => promise_state A' 7
       | s => s
       end |}.

Definition moves_as_expected (A A' : Async) : Prop :=
  actual_progress A A' = expected_progress A A'.

(** What is seen along every course of events from a state, to a given
    depth: the facts of each state, and below them one entry per kind of
    event, for every payload it may carry. *)
Inductive sight :=
| Unexplored (side : bool)
| Seen (f : facts) (next : list sight)
| Nothing
| Step (p : progress) (then_ : sight)
| AnyKey (g : CryptoKey -> sight)
| AnyError (g : error -> sight)
| AnyBytes (g : bytes -> sight).

Definition seen_facts (s : sight) (d : facts) : facts :=
  match s with Seen f _ => f | _ => d end.

Definition seen_next (i : nat) (s : sight) : sight :=
  match s with Seen _ l => nth i l Nothing | _ => Nothing end.

Definition at_key (k : CryptoKey) (s : sight) : sight :=
  match s with AnyKey g => g k | _ => Nothing end.

Definition at_error (e : error) (s : sight) : sight :=
  match s with AnyError g => g e | _ => Nothing end.

Definition at_bytes (b : bytes) (s : sight) : sight :=
  match s with AnyBytes g => g b | _ => Nothing end.

Definition step_progress (s : sight) (d : progress) : progress :=
  match s with Step p _ => p | _ => d end.

Definition step_then (s : sight) : sight :=
  match s with Step _ t => t | _ => Nothing end.

Definition look (side : bool) (sub : Async -> sight) (A : Async) (ev : event)
    : sight :=
  if effective A ev
  then Step (if side then actual_progress A (react U A ev)
             else expected_progress A (react U A ev))
            (sub (react U A ev))
  else Nothing.

(** [watch true] records what the states show, [watch false] what they
    ought to show. *)
Fixpoint watch (side : bool) (n : nat) (A : Async) : sight :=
  match n with
  | 0 => Unexplored side
  | S n' =>
      Seen (if side then actual A else expected A)
        [AnyKey (fun k => look side (watch side n') A (KeyResolved k));
         AnyError (fun e => look side (watch side n') A (KeyRejected e));
         AnyKey (fun k => look side (watch side n') A (CekResolved k));
         AnyError (fun e => look side (watch side n') A (CekRejected e));
         AnyBytes (fun b => look side (watch side n') A (WrapResolved b));
         AnyError (fun e => look side (watch side n') A (WrapRejected e));
         AnyBytes (fun c => AnyBytes (fun t =>
           look side (watch side n') A (EncryptResolved c t)));
         AnyError (fun e => look side (watch side n') A (EncryptRejected e));
         look side (watch side n') A Microtask]
  end.

End Exploration.

Section Call.

Variables (U : Utils) (C : Cryptographer).

(** The Encrypter [boot] constructs. *)
Definition the_encrypter : Encrypter :=
  {| cryptographer := C; key_promise := 0; userHeaders := 0 |}.

(** The world before the call: some headers, the key settled or not. *)
Definition world_before (o : JSObject.obj) (r : option settlement) : World :=
  {| this := the_encrypter; heap := [o]; async := before_call r |}.

End Call.

(* ===================================================================== *)
(** ** A concrete [Utils] and a test double for the Cryptographer *)

Module Base64Url.

(** Six bits, most significant first. *)
Definition sextet := (bool * bool * bool * bool * bool * bool)%type.

Definition alphabet : list ascii :=
  list_ascii_of_string
    "ABCDEFGHIJKLMNOPQRSTUVWXYZabcdefghijklmnopqrstuvwxyz0123456789-_".

Definition index (s : sextet) : nat :=
  let '(b5, b4, b3, b2, b1, b0) := s in
  32 * Nat.b2n b5 + 16 * Nat.b2n b4 + 8 * Nat.b2n b3 +
  4 * Nat.b2n b2 + 2 * Nat.b2n b1 + Nat.b2n b0.

Definition char_of (s : sextet) : ascii := nth (index s) alphabet "A"%char.

Fixpoint position (c : ascii) (l : list ascii) (i : nat) : option nat :=
  match l with
  | [] => None
  | x :: r => if Ascii.eqb x c then Some i else position c r (S i)
  end.

Definition sextet_of_index (n : nat) : sextet :=
  (Nat.testbit n 5, Nat.testbit n 4, Nat.testbit n 3,
   Nat.testbit n 2, Nat.testbit n 1, Nat.testbit n 0).

Definition sextet_of (c : ascii) : option sextet :=
  option_map sextet_of_index (position c alphabet 0).

(** Three bytes become four characters; a tail of one or two bytes
    becomes two or three, with no padding. *)
Fixpoint encode (s : string) : string :=
  match s with
  | EmptyString => EmptyString
  | String (Ascii a0 a1 a2 a3 a4 a5 a6 a7) EmptyString =>
      String (char_of (a7, a6, a5, a4, a3, a2))
        (String (char_of (a1, a0, false, false, false, false)) EmptyString)
  | String (Ascii a0 a1 a2 a3 a4 a5 a6 a7)
      (String (Ascii b0 b1 b2 b3 b4 b5 b6 b7) EmptyString) =>
      String (char_of (a7, a6, a5, a4, a3, a2))
        (String (char_of (a1, a0, b7, b6, b5, b4))
           (String (char_of (b3, b2, b1, b0, false, false)) EmptyString))
  | String (Ascii a0 a1 a2 a3 a4 a5 a6 a7)
      (String (Ascii b0 b1 b2 b3 b4 b5 b6 b7)
         (String (Ascii c0 c1 c2 c3 c4 c5 c6 c7) r)) =>
      String (char_of (a7, a6, a5, a4, a3, a2))
        (String (char_of (a1, a0, b7, b6, b5, b4))
           (String (char_of (b3, b2, b1, b0, c7, c6))
              (String (char_of (c5, c4, c3, c2, c1, c0)) (encode r))))
  end.

Definition byte1 (w x : sextet) : ascii :=
  let '(w5, w4, w3, w2, w1, w0) := w in
  let '(x5, x4, _, _, _, _) := x in
  Ascii x4 x5 w0 w1 w2 w3 w4 w5.

Definition byte2 (x y : sextet) : ascii :=
  let '(_, _, x3, x2, x1, x0) := x in
  let '(y5, y4, y3, y2, _, _) := y in
  Ascii y2 y3 y4 y5 x0 x1 x2 x3.

Definition byte3 (y z : sextet) : ascii :=
  let '(_, _, _, _, y1, y0) := y in
  let '(z5, z4, z3, z2, z1, z0) := z in
  Ascii z0 z1 z2 z3 z4 z5 y0 y1.

Fixpoint decode (s : string) : option string :=
  match s with
  | EmptyString => Some EmptyString
  | String _ EmptyString => None
  | String w (String x EmptyString) =>
      match sextet_of w, sextet_of x with
      | Some w, Some x => Some (String (byte1 w x) EmptyString)
      | _, _ => None
      end
  | String w (String x (String y EmptyString)) =>
      match sextet_of w, sextet_of x, sextet_of y with
      | Some w, Some x, Some y =>
          Some (String (byte1 w x) (String (byte2 x y) EmptyString))
      | _, _, _ => None
      end
  | String w (String x (String y (String z r))) =>
      match sextet_of w, sextet_of x, sextet_of y, sextet_of z, decode r with
      | Some w, Some x, Some y, Some z, Some r' =>
          Some (String (byte1 w x)
                  (String (byte2 x y) (String (byte3 y z) r')))
      | _, _, _, _, _ => None
      end
  end.

End Base64Url.

(** Modelled from the spec: [Utils.Base64Url.encode],
    [Utils.Base64Url.encodeArray] and [Utils.arrayFromString] are not part
    of the file; the external-interfaces section gives them as
    [base64UrlEncode(string) -> string], [base64UrlEncodeBytes(bytes) ->
    string] and a string-to-bytes conversion, with no padding in the
    base64url alphabet.  A character stands for the byte of its code. *)
Definition StdUtils : Utils :=
  {| Base64Url_encode := Base64Url.encode;
     Base64Url_encodeArray := fun b => Base64Url.encode (string_of_list_byte b);
     arrayFromString := list_byte_of_string |}.

(** The deterministic Cryptographer of the end-to-end scenario: [dir],
    [A128GCM] and a fixed 12-byte IV. *)
Definition mock : Cryptographer :=
  {| getKeyEncryptionAlgorithm := "dir";
     getContentEncryptionAlgorithm := "A128GCM";
     createIV := fun _ => list_byte_of_string "0123456789ab" |}.

(* ===================================================================== *)
(** ** Sample sessions and the vocabulary of the claims *)

Definition sample_before : list event := [CallAddHeader "kid" "1"].

Definition sample_after : list event :=
  [CekResolved 5; Microtask;
   EncryptResolved (list_byte_of_string "ciphertext") (list_byte_of_string "tag");
   KeyResolved 7; Microtask; Microtask; Microtask; Microtask;
   WrapResolved []] ++ patience.

(** The token of the end-to-end scenario, for the empty plaintext. *)
Definition sample_token : string :=
  Eval vm_compute in
    match result StdUtils mock sample_before EmptyString sample_after with
    | Fulfilled (VString s) => s
    | _ => EmptyString
    end.

Definition alg_before : list event :=
  [CallAddHeader "alg" "none"; CallAddHeader "enc" "none"; CallAddHeader "kid" "1"].

Definition alg_token : string :=
  Eval vm_compute in
    match result StdUtils mock alg_before "hi" sample_after with
    | Fulfilled (VString s) => s
    | _ => EmptyString
    end.

Definition not_addHeader (ev : event) : bool := negb (is_addHeader ev).

(** The header object of the call: the object [encryptPlainText] creates,
    the second on the heap. *)
Definition header_of_call (U : Utils) (C : Cryptographer)
    (before : list event) (plain_text : string) (after : list event)
    : JSObject.obj :=
  nth 1 (heap (snd (session U C before plain_text after))) JSObject.empty.

(** The claim that after two [addHeader] calls for a key the final header
    has one member for it, holding the value written last. *)
Definition last_write_in_final_header (U : Utils) (C : Cryptographer)
    (before : list event) (k v1 v2 : string) (plain_text : string)
    (after : list event) : Prop :=
  JSObject.members k
    (header_of_call U C (before ++ [CallAddHeader k v1; CallAddHeader k v2])
       plain_text after) = [(k, v2)].


(* ===================================================================== *)
(** ** Surveying the states events lead to

    A transition system over the events of a session, with two readings
    of each state to compare. *)

Section Survey.

Variables St F : Type.
Variable next : St -> event -> St.
Variable live : St -> event -> bool.
Variables shown due : St -> F.

Inductive view :=
| Dark (side : bool)
| Lit (f : F) (below : list view)
| Still
| Move (sub : view)
| EachKey (g : CryptoKey -> view)
| EachError (g : error -> view)
| EachBytes (g : bytes -> view).

Definition lit_fact (v : view) (d : F) : F :=
  match v with Lit f _ => f | _ => d end.

Definition lit_below (i : nat) (v : view) : view :=
  match v with Lit _ l => nth i l Still | _ => Still end.

Definition on_key (k : CryptoKey) (v : view) : view :=
  match v with EachKey g => g k | _ => Still end.

Definition on_error (e : error) (v : view) : view :=
  match v with EachError g => g e | _ => Still end.

Definition on_bytes (b : bytes) (v : view) : view :=
  match v with EachBytes g => g b | _ => Still end.

Definition move_sub (v : view) : view :=
  match v with Move s => s | _ => Still end.

Definition glance (sub : St -> view) (s : St) (ev : event) : view :=
  if live s ev then Move (sub (next s ev)) else Still.

(** One reading of every state within [n] effective events of [s], for
    every payload the events may carry. *)
Fixpoint survey (side : bool) (n : nat) (s : St) : view :=
  match n with
  | 0 => Dark side
  | S n' =>
      Lit (if side then shown s else due s)
        [EachKey (fun k => glance (survey side n') s (KeyResolved k));
         EachError (fun e => glance (survey side n') s (KeyRejected e));
         EachKey (fun k => glance (survey side n') s (CekResolved k));
         EachError (fun e => glance (survey side n') s (CekRejected e));
         EachBytes (fun b => glance (survey side n') s (WrapResolved b));
         EachError (fun e => glance (survey side n') s (WrapRejected e));
         EachBytes (fun c => EachBytes (fun t =>
           glance (survey side n') s (EncryptResolved c t)));
         EachError (fun e => glance (survey side n') s (EncryptRejected e));
         glance (survey side n') s Microtask]
  end.

End Survey.

(** The state the trace gives the promise of an owner. *)
Fixpoint settled_as (o : origin) (tr : list label) : pstate :=
  match tr with
  | [] => Pending
  | LSettled o' r :: rest =>
      if origin_eqb o' o then settled r else settled_as o rest
  | _ :: rest => settled_as o rest
  end.

(** The wrapped CEK and the ciphertext have both been delivered. *)
Definition delivered (tr : list label) : bool :=
  match fulfilled_with OWrapCek tr, fulfilled_with OEncrypt tr with
  | Some _, Some _ => true
  | _, _ => false
  end.

(** The promise of [wrapCek] is settled only after [wrapCek] was
    invoked. *)
Fixpoint delivered_after_invoked (invoked : bool) (tr : list label) : bool :=
  match tr with
  | [] => true
  | LWrapCek _ _ _ :: rest => delivered_after_invoked true rest
  | LSettled OWrapCek _ :: rest =>
      invoked && delivered_after_invoked invoked rest
  | _ :: rest => delivered_after_invoked invoked rest
  end.

(** How the promises of a call stand against its trace: the recipient
    key (promise 0), the CEK (1), the content encryption (4) and the
    wrapped CEK (8) are as their owners settled them; no failure has been
    seen once both deliveries have; a microtask settles none of them; the
    wrapped CEK is not delivered before [wrapCek] was invoked. *)
Record coherence := {
  c_key : pstate;
  c_cek : pstate;
  c_encrypt : pstate;
  c_wrap : pstate;
  c_failures : list error;
  c_settled : list label;
  c_invoked : bool
}.

Definition coherence_shown (U : Utils) (A : Async) : coherence :=
  {| c_key := promise_state A 0;
     c_cek := promise_state A 1;
     c_encrypt := promise_state A 4;
     c_wrap := promise_state A 8;
     c_failures := if delivered (trace A) then failures (trace A) else [];
     c_settled := filter is_settled (trace (microtask U A));
     c_invoked := delivered_after_invoked false (trace A) |}.

Definition coherence_due (A : Async) : coherence :=
  {| c_key := settled_as OCaller (trace A);
     c_cek := settled_as OCreateCek (trace A);
     c_encrypt := settled_as OEncrypt (trace A);
     c_wrap := settled_as OWrapCek (trace A);
     c_failures := [];
     c_settled := filter is_settled (trace A);
     c_invoked := true |}.

(** A trace with the plaintext bytes blanked out. *)
Definition blank_plaintext (l : label) : label :=
  match l with
  | LEncrypt iv0 aad cek_promise _ p => LEncrypt iv0 aad cek_promise [] p
  | _ => l
  end.

Definition blank (A : Async) : Async :=
  {| store := store A; queue := queue A;
     trace := map blank_plaintext (trace A); ivs_drawn := ivs_drawn A |}.

(** Two runs side by side. *)
Definition react_both (U : Utils) (s : Async * Async) (ev : event)
    : Async * Async :=
  (react U (fst s) ev, react U (snd s) ev).

Definition effective_either (s : Async * Async) (ev : event) : bool :=
  effective (fst s) ev || effective (snd s) ev.

(** A second call on the Encrypter of the sample session, while the first
    is in flight. *)
Definition world_in_flight : World :=
  snd (session StdUtils mock sample_before "hi" [KeyResolved 7]).

(* ===================================================================== *)
(** * Proofs *)

(** ** Events factor through the world *)

Section Factoring.

Variable U : Utils.

Lemma step_this W ev : this (step U W ev) = this W.
Proof.
  destruct ev; reflexivity.
Qed.

Lemma step_async W ev : async (step U W ev) = react U (async W) ev.
Proof.
  destruct ev; reflexivity.
Qed.

Lemma microtask_idle A : queue A = [] -> microtask U A = A.
Proof.
  unfold microtask. intros H. rewrite H. reflexivity.
Qed.

Lemma microtasks_idle n A :
  queue A = [] -> fold_left (react U) (repeat Microtask n) A = A.
Proof.
  intros H. induction n as [|n IH]; simpl; [reflexivity|].
  rewrite microtask_idle by exact H. exact IH.
Qed.

Lemma step_heap W ev :
  heap (step U W ev) =
  match ev with
  | CallAddHeader k v =>
      update (userHeaders (this W)) (fun o => JSObject.set o k v) (heap W)
  | _ => heap W
  end.
Proof.
  destruct ev; reflexivity.
Qed.

Lemma run_events_this l W : this (run_events U l W) = this W.
Proof.
  unfold run_events. revert W.
  induction l as [|ev l IH]; intros W; cbn [fold_left]; [reflexivity|].
  rewrite IH. apply step_this.
Qed.

Lemma run_events_async l W :
  async (run_events U l W) = fold_left (react U) l (async W).
Proof.
  unfold run_events. revert W.
  induction l as [|ev l IH]; intros W; cbn [fold_left]; [reflexivity|].
  rewrite IH, step_async. reflexivity.
Qed.

Lemma run_events_app l1 l2 W :
  run_events U (l1 ++ l2) W = run_events U l2 (run_events U l1 W).
Proof.
  unfold run_events. apply fold_left_app.
Qed.

(** Adding a header is invisible to the promise machinery. *)
Lemma react_addHeader_free l A :
  fold_left (react U) l A =
  fold_left (react U) (filter (fun ev => negb (is_addHeader ev)) l) A.
Proof.
  revert A. induction l as [|ev l IH]; intros A; [reflexivity|].
  destruct ev; cbn [filter is_addHeader negb fold_left];
    rewrite IH; reflexivity.
Qed.

(** With the Encrypter's headers at location 0 and one more object on
    the heap, events only rewrite the former. *)
Lemma run_events_heap2 l E o x A :
  userHeaders E = 0 ->
  heap (run_events U l {| this := E; heap := [o; x]; async := A |}) =
  [add_headers l o; x].
Proof.
  intros HE. unfold run_events, add_headers. revert o A.
  induction l as [|ev l IH]; intros o A; cbn [fold_left]; [reflexivity|].
  destruct ev; try apply IH.
  unfold step, exec, addHeader, bind, self, write.
  cbn [this heap async snd]. rewrite HE. cbn [update]. apply IH.
Qed.

Lemma run_events_heap1 l E o A :
  userHeaders E = 0 ->
  heap (run_events U l {| this := E; heap := [o]; async := A |}) =
  [add_headers l o].
Proof.
  intros HE. unfold run_events, add_headers. revert o A.
  induction l as [|ev l IH]; intros o A; cbn [fold_left]; [reflexivity|].
  destruct ev; try apply IH.
  unfold step, exec, addHeader, bind, self, write.
  cbn [this heap async snd]. rewrite HE. cbn [update]. apply IH.
Qed.

Lemma world_eta W : W = {| this := this W; heap := heap W; async := async W |}.
Proof.
  destruct W. reflexivity.
Qed.

(** ** Exploring the reachable states *)

Lemma ineffective_idle A ev : effective A ev = false -> idle U A ev.
Proof.
  unfold idle, effective, react, deliver, microtask.
  intros H.
  destruct ev; cbn [delivery] in *;
    try (split; [|intros X; discriminate X];
         destruct (find_source _ 0 (store A)) as [p|]; [|reflexivity];
         destruct (promise_state A p); [discriminate H|reflexivity|reflexivity]).
  - destruct (queue A); [|discriminate H]. split; reflexivity.
  - split; [reflexivity|intros X; discriminate X].
Qed.

Lemma explored_sound n P R A :
  explored U n P R A -> forall l, P (fold_left (react U) l A).
Proof.
  intros H l. revert n A H.
  induction l as [|ev l IH]; intros n A H; simpl.
  - destruct n; apply H.
  - destruct n as [|n]; simpl in H; destruct H as [HP Hs].
    + destruct (Hs ev) as [E _]. rewrite E. apply (IH 0). simpl. auto.
    + destruct (Hs ev) as [[E _]|[_ E]].
      * rewrite E. apply (IH (S n)). simpl. auto.
      * apply (IH n). exact E.
Qed.

Lemma explored_reach n P R A l :
  explored U n P R A ->
  exists m, m <= n /\ explored U m P R (fold_left (react U) l A).
Proof.
  revert n A. induction l as [|ev l IH]; intros n A H; simpl.
  - exists n. split; [lia|exact H].
  - destruct n as [|n]; simpl in H; destruct H as [HP Hs].
    + destruct (Hs ev) as [E _]. rewrite E. apply (IH 0). simpl. auto.
    + destruct (Hs ev) as [[E _]|[_ E]].
      * rewrite E. apply (IH (S n)). simpl. auto.
      * destruct (IH n _ E) as [m [Hm Hx]]. exists m. split; [lia|exact Hx].
Qed.

(** A relation that holds along every effective step holds, once closed
    under reflexivity and transitivity, between a state and all its
    futures. *)
Lemma explored_edges n P R A :
  (forall X, R X X) ->
  (forall X Y Z, R X Y -> R Y Z -> R X Z) ->
  explored U n P R A ->
  forall l l', R (fold_left (react U) l A) (fold_left (react U) (l ++ l') A).
Proof.
  intros Hrefl Htrans H l l'. rewrite fold_left_app.
  destruct (explored_reach _ _ _ _ l H) as [m [_ Hm]].
  generalize dependent (fold_left (react U) l A). clear l A H.
  intros A. revert m A.
  induction l' as [|ev l' IH]; intros m A Hm; simpl; [apply Hrefl|].
  destruct m as [|m]; simpl in Hm; destruct Hm as [HP Hs].
  - destruct (Hs ev) as [E _]. rewrite E. apply (IH 0). simpl. auto.
  - destruct (Hs ev) as [[E _]|[HR E]].
    + rewrite E. apply (IH (S m)). simpl. auto.
    + eapply Htrans; [exact HR|]. apply (IH m). exact E.
Qed.

(** Microtasks run out: after as many of them as the depth of the
    exploration, the queue is empty. *)
Lemma explored_quiet n P R A :
  explored U n P R A ->
  forall m, n <= m ->
    queue (fold_left (react U) (repeat Microtask m) A) = [].
Proof.
  revert A. induction n as [|n IH]; intros A H m Hm.
  - destruct H as [_ Hs]. destruct (Hs Microtask) as [_ Q].
    rewrite microtasks_idle; auto.
  - simpl in H. destruct H as [_ Hs].
    destruct (Hs Microtask) as [[_ Q]|[_ E]].
    + rewrite microtasks_idle; auto.
    + destruct m as [|m]; [lia|]. simpl. apply IH; [exact E|lia].
Qed.

End Factoring.

(** ** What is seen is what ought to be seen *)

Section Watching.

Variable U : Utils.

Lemma joined_sound tr : forall key cek,
  joined_seen key cek tr = joined_args tr -> wrap_joined key cek tr.
Proof.
  induction tr as [|l tr IH]; intros key cek H; [exact I|].
  destruct l as [| | | | | | c k p |o r|]; cbn [joined_seen joined_args] in H;
    cbn [wrap_joined]; try (apply IH; exact H).
  - injection H as Hk Hc H. subst key cek. auto.
  - destruct o; try (apply IH; exact H);
      destruct r as [[ | | | | | ]|e]; apply IH; exact H.
Qed.

Variables (h : string) (iv0 aad ptb : bytes) (o : JSObject.obj).

Lemma look_sound n A ev :
  (forall X,
     watch U h iv0 aad ptb o true n X = watch U h iv0 aad ptb o false n X ->
     explored U n (as_expected U h iv0 aad ptb o) moves_as_expected X) ->
  look U true (watch U h iv0 aad ptb o true n) A ev =
  look U false (watch U h iv0 aad ptb o false n) A ev ->
  idle U A ev \/
  (moves_as_expected A (react U A ev) /\
   explored U n (as_expected U h iv0 aad ptb o) moves_as_expected
     (react U A ev)).
Proof.
  intros IH H. unfold look in H.
  destruct (effective A ev) eqn:E.
  - right. split.
    + exact (f_equal (fun s => step_progress s (actual_progress A A)) H).
    + apply IH. exact (f_equal step_then H).
  - left. apply ineffective_idle. exact E.
Qed.

(** When what is seen is what ought to be seen, the facts hold in every
    state that can be reached. *)
Lemma watch_sound n : forall A,
  watch U h iv0 aad ptb o true n A = watch U h iv0 aad ptb o false n A ->
  explored U n (as_expected U h iv0 aad ptb o) moves_as_expected A.
Proof.
  induction n as [|n IH]; intros A H; [discriminate H|].
  cbn [watch] in H.
  cbn [explored]. split.
  { exact (f_equal (fun s => seen_facts s (actual A)) H). }
  intros ev. apply look_sound; [exact IH|].
  destruct ev as [k|e|k|e|b|e|c t|e| |k v].
  - exact (f_equal (fun s => at_key k (seen_next 0 s)) H).
  - exact (f_equal (fun s => at_error e (seen_next 1 s)) H).
  - exact (f_equal (fun s => at_key k (seen_next 2 s)) H).
  - exact (f_equal (fun s => at_error e (seen_next 3 s)) H).
  - exact (f_equal (fun s => at_bytes b (seen_next 4 s)) H).
  - exact (f_equal (fun s => at_error e (seen_next 5 s)) H).
  - exact (f_equal (fun s => at_bytes t (at_bytes c (seen_next 6 s))) H).
  - exact (f_equal (fun s => at_error e (seen_next 7 s)) H).
  - exact (f_equal (seen_next 8) H).
  - reflexivity.
Qed.

Lemma as_expected_invariant A :
  as_expected U h iv0 aad ptb o A -> invariant U h iv0 aad ptb o A.
Proof.
  unfold as_expected. intros H.
  pose proof (f_equal f_token H) as Ht.
  pose proof (f_equal f_at_rest H) as Hq.
  pose proof (f_equal f_rejected H) as Hr.
  pose proof (f_equal f_sync H) as Hs.
  pose proof (f_equal f_joined H) as Hj.
  pose proof (f_equal f_wraps H) as Hw.
  pose proof (f_equal f_wraps_at_rest H) as Hwq.
  pose proof (f_equal f_order H) as Ho.
  pose proof (f_equal f_distinct H) as Hd.
  clear H. cbn [actual expected f_token f_at_rest f_rejected f_sync f_joined
                f_wraps f_wraps_at_rest f_order f_distinct] in *.
  repeat split.
  - intros v Hv. rewrite Hv in Ht. symmetry. exact Ht.
  - intros Q. rewrite Q in Hq, Hr.
    destruct (first_failure (trace A)); [exact Hr|exact Hq].
  - exact Hs.
  - apply joined_sound. exact Hj.
  - unfold wraps_sound.
    destruct (filter is_wrap (trace A)); [left; reflexivity|right; exact Hw].
  - intros Q. rewrite Q in Hwq. exact Hwq.
  - exact Ho.
  - exact Hd.
Qed.

Lemma moves_advances A A' : moves_as_expected A A' -> advances A A'.
Proof.
  unfold moves_as_expected, advances. intros H.
  pose proof (f_equal p_trace H) as Ht.
  pose proof (f_equal p_result H) as Hr.
  cbn [actual_progress expected_progress p_trace p_result] in *.
  split; [exact Ht|].
  destruct (promise_state A 7); [left; reflexivity|right; exact Hr..].
Qed.

Lemma explored_impl n (P Q : Async -> Prop) (R S : Async -> Async -> Prop) :
  (forall X, P X -> Q X) -> (forall X Y, R X Y -> S X Y) ->
  forall A, explored U n P R A -> explored U n Q S A.
Proof.
  intros HP HR. induction n as [|n IH]; intros A [HA Hs].
  - split; [apply HP; exact HA|exact Hs].
  - split; [apply HP; exact HA|].
    intros ev. destruct (Hs ev) as [E|[E1 E2]]; [left; exact E|].
    right. split; [apply HR; exact E1|apply IH; exact E2].
Qed.

Lemma watched_pending :
  watch U h iv0 aad ptb o true 16 (after_call h iv0 aad ptb o None) =
  watch U h iv0 aad ptb o false 16 (after_call h iv0 aad ptb o None).
Proof.
  vm_compute. reflexivity.
Qed.

Lemma watched_fulfilled k :
  watch U h iv0 aad ptb o true 16
    (after_call h iv0 aad ptb o (Some (inl (VKey k)))) =
  watch U h iv0 aad ptb o false 16
    (after_call h iv0 aad ptb o (Some (inl (VKey k)))).
Proof.
  vm_compute. reflexivity.
Qed.

Lemma watched_rejected e :
  watch U h iv0 aad ptb o true 16 (after_call h iv0 aad ptb o (Some (inr e))) =
  watch U h iv0 aad ptb o false 16 (after_call h iv0 aad ptb o (Some (inr e))).
Proof.
  vm_compute. reflexivity.
Qed.

(** Every state after a call, whatever the key promise was at the call. *)
Lemma after_call_explored r :
  key_settlement r ->
  explored U 16 (invariant U h iv0 aad ptb o) advances
    (after_call h iv0 aad ptb o r).
Proof.
  intros Hr.
  apply (explored_impl 16 (as_expected U h iv0 aad ptb o) _
           moves_as_expected _ as_expected_invariant moves_advances).
  apply watch_sound.
  destruct r as [[[k| | | | | ]|e]|]; try contradiction.
  - apply watched_fulfilled.
  - apply watched_rejected.
  - apply watched_pending.
Qed.

End Watching.

Section Reachable.

Variables (U : Utils) (C : Cryptographer).

(** Before the call an event settles the recipient key or does
    nothing. *)
Lemma before_call_closed l : forall r,
  key_settlement r ->
  exists r', key_settlement r' /\
    fold_left (react U) l (before_call r) = before_call r'.
Proof.
  induction l as [|ev l IH]; intros r Hr; [exists r; auto|].
  cbn [fold_left].
  destruct r as [[[k| | | | | ]|e]|]; try contradiction.
  - destruct ev; apply (IH (Some (inl (VKey k)))); exact I.
  - destruct ev; apply (IH (Some (inr e))); exact I.
  - destruct ev as [k|e| | | | | | | | ]; try (apply (IH None); exact I).
    + apply (IH (Some (inl (VKey k)))). exact I.
    + apply (IH (Some (inr e))). exact I.
Qed.

Lemma encrypt_eq o plain_text r :
  key_settlement r ->
  encrypt U plain_text (world_before C o r) =
  (7, {| this := the_encrypter C; heap := [o; header_object C o];
         async := after_call (protected_header U C o) (createIV C 0)
                    (arrayFromString U (protected_header U C o))
                    (arrayFromString U plain_text) o r |}).
Proof.
  intros Hr.
  destruct r as [[[k| | | | | ]|e]|]; try contradiction;
    unfold after_call, sync_calls, protected_header, header_object,
      JSObject.empty;
    lazy -[String.append JSObject.set copy_props JSON.stringify
           Base64Url_encode Base64Url_encodeArray arrayFromString
           createIV getKeyEncryptionAlgorithm getContentEncryptionAlgorithm];
    reflexivity.
Qed.

Lemma boot_eq : boot C = world_before C JSObject.empty None.
Proof.
  reflexivity.
Qed.

Lemma before_eq l :
  exists r, key_settlement r /\
    run_events U l (boot C) = world_before C (add_headers l JSObject.empty) r.
Proof.
  destruct (before_call_closed l None I) as [r [Hr E]].
  exists r. split; [exact Hr|].
  rewrite (world_eta (run_events U l (boot C))).
  rewrite run_events_this, run_events_async.
  rewrite boot_eq. unfold world_before at 2.
  rewrite run_events_heap1 by reflexivity.
  simpl. rewrite E. reflexivity.
Qed.

(** Every session, spelled out. *)
Lemma session_eq before plain_text after :
  exists r, key_settlement r /\
    session U C before plain_text after =
    (7, {| this := the_encrypter C;
           heap := [add_headers after (add_headers before JSObject.empty);
                    header_object C (add_headers before JSObject.empty)];
           async :=
             fold_left (react U) after
               (after_call
                  (protected_header U C (add_headers before JSObject.empty))
                  (createIV C 0)
                  (arrayFromString U
                     (protected_header U C (add_headers before JSObject.empty)))
                  (arrayFromString U plain_text)
                  (add_headers before JSObject.empty) r) |}).
Proof.
  destruct (before_eq before) as [r [Hr E]].
  exists r. split; [exact Hr|].
  unfold session. rewrite E, (encrypt_eq _ _ _ Hr).
  f_equal.
  match goal with |- ?W = _ => rewrite (world_eta W) end.
  rewrite run_events_this, run_events_async, run_events_heap2 by reflexivity.
  reflexivity.
Qed.

Lemma headers_at_call_eq before :
  headers_at_call U C before = add_headers before JSObject.empty.
Proof.
  unfold headers_at_call.
  destruct (before_eq before) as [r [_ E]]. rewrite E. reflexivity.
Qed.

End Reachable.

(* ===================================================================== *)
(** ** Where rejection reasons come from *)

Section Grounded.

Variable U : Utils.
























End Grounded.

(* ===================================================================== *)
(** ** Splitting at dots *)

Lemma append_cons_assoc a c s :
  (a +++ String c EmptyString) +++ s = a +++ String c s.
Proof.
  induction a as [|x a IH]; simpl; [reflexivity|]. rewrite IH. reflexivity.
Qed.

Lemma append_empty_r a : a +++ EmptyString = a.
Proof.
  induction a as [|x a IH]; simpl; [reflexivity|]. rewrite IH. reflexivity.
Qed.

Lemma count_dots_app a b : count_dots (a +++ b) = count_dots a + count_dots b.
Proof.
  induction a as [|x a IH]; simpl; [reflexivity|]. rewrite IH. lia.
Qed.

Lemma dot_free_cons c a :
  dot_free (String c a) -> Ascii.eqb c dot_char = false /\ dot_free a.
Proof.
  unfold dot_free. simpl. destruct (Ascii.eqb c dot_char); simpl.
  - discriminate.
  - auto.
Qed.

Lemma split_dot_aux_free cur a :
  dot_free a -> split_dot_aux cur a = [cur +++ a].
Proof.
  revert cur. induction a as [|c a IH]; intros cur H; simpl.
  - rewrite append_empty_r. reflexivity.
  - apply dot_free_cons in H. destruct H as [Hc Ha]. rewrite Hc.
    rewrite IH by exact Ha. rewrite append_cons_assoc. reflexivity.
Qed.

Lemma split_dot_aux_dot cur a rest :
  dot_free a ->
  split_dot_aux cur (a +++ String dot_char rest) =
  (cur +++ a) :: split_dot_aux EmptyString rest.
Proof.
  revert cur. induction a as [|c a IH]; intros cur H; simpl.
  - rewrite append_empty_r. reflexivity.
  - apply dot_free_cons in H. destruct H as [Hc Ha]. rewrite Hc.
    rewrite IH by exact Ha. rewrite append_cons_assoc. reflexivity.
Qed.

Lemma split_dot_five a b c d e :
  dot_free a -> dot_free b -> dot_free c -> dot_free d -> dot_free e ->
  split_dot (a +++ "." +++ b +++ "." +++ c +++ "." +++ d +++ "." +++ e) =
  [a; b; c; d; e].
Proof.
  intros Ha Hb Hc Hd He. unfold split_dot.
  change ("." +++ ?x) with (String dot_char x).
  repeat (rewrite split_dot_aux_dot by assumption; simpl append).
  rewrite split_dot_aux_free by assumption. reflexivity.
Qed.

Lemma count_dots_five a b c d e :
  dot_free a -> dot_free b -> dot_free c -> dot_free d -> dot_free e ->
  count_dots (a +++ "." +++ b +++ "." +++ c +++ "." +++ d +++ "." +++ e) = 4.
Proof.
  unfold dot_free. intros Ha Hb Hc Hd He.
  repeat rewrite count_dots_app. rewrite Ha, Hb, Hc, Hd, He. reflexivity.
Qed.

(* ===================================================================== *)
(** ** Properties of objects *)

Module JSObjectFacts.
Import JSObject.

Lemma get_set_named o k v k' :
  get (set_named k v o) k' = if String.eqb k k' then Some v else get o k'.
Proof.
  induction o as [|[k0 v0] r IH]; simpl.
  - reflexivity.
  - destruct (String.eqb_spec k0 k) as [E|N]; simpl.
    + subst k0. destruct (String.eqb k k'); reflexivity.
    + rewrite IH. destruct (String.eqb_spec k0 k') as [E'|N'].
      * subst k'. destruct (String.eqb_spec k k0); [congruence|reflexivity].
      * reflexivity.
Qed.

Lemma get_set_index o k n v k' :
  get (set_index k n v o) k' = if String.eqb k k' then Some v else get o k'.
Proof.
  induction o as [|[k0 v0] r IH]; simpl.
  - reflexivity.
  - destruct (array_index k0) as [m|]; simpl.
    + destruct (String.eqb_spec k0 k) as [E|N]; simpl.
      * subst k0. destruct (String.eqb k k'); reflexivity.
      * destruct (m <? n)%N; simpl.
        -- rewrite IH. destruct (String.eqb_spec k0 k') as [E'|N'].
           ++ subst k'. destruct (String.eqb_spec k k0); [congruence|reflexivity].
           ++ reflexivity.
        -- destruct (String.eqb k k'); reflexivity.
    + destruct (String.eqb k k'); reflexivity.
Qed.

(** Reading after writing. *)
Lemma get_set o k v k' :
  get (set o k v) k' =
  if String.eqb k "__proto__" then get o k'
  else if String.eqb k k' then Some v else get o k'.
Proof.
  unfold set. destruct (String.eqb k "__proto__"); [reflexivity|].
  destruct (array_index k); [apply get_set_index|apply get_set_named].
Qed.

Lemma get_set_same o k v :
  k <> "__proto__" -> get (set o k v) k = Some v.
Proof.
  intros H. rewrite get_set.
  destruct (String.eqb_spec k "__proto__"); [contradiction|].
  rewrite String.eqb_refl. reflexivity.
Qed.

Lemma get_set_other o k v k' :
  k <> k' -> get (set o k v) k' = get o k'.
Proof.
  intros H. rewrite get_set.
  destruct (String.eqb k "__proto__"); [reflexivity|].
  destruct (String.eqb_spec k k'); [contradiction|reflexivity].
Qed.

Lemma get_proto_set o k v :
  get o "__proto__" = None -> get (set o k v) "__proto__" = None.
Proof.
  intros H. rewrite get_set.
  destruct (String.eqb_spec k "__proto__") as [E|N]; [exact H|].
  destruct (String.eqb_spec k "__proto__"); [contradiction|exact H].
Qed.

Lemma get_in_keys o k : get o k <> None <-> In k (keys o).
Proof.
  induction o as [|[k0 v0] r IH]; simpl.
  - split; [congruence|tauto].
  - destruct (String.eqb_spec k0 k) as [E|N].
    + split; [auto|congruence].
    + rewrite IH. split; [auto|]. intros [E|H]; [contradiction|exact H].
Qed.

Lemma copy_loop_get src k ks dst :
  k <> "__proto__" ->
  get (fold_left
         (fun h i => match get src i with
                     | Some v => set h i v
                     | None => h
                     end) ks dst) k =
  if existsb (String.eqb k) ks
  then match get src k with Some v => Some v | None => get dst k end
  else get dst k.
Proof.
  intros Hk. revert dst.
  induction ks as [|i ks IH]; intros dst; simpl; [reflexivity|].
  rewrite IH.
  destruct (String.eqb_spec k i) as [E|N]; simpl.
  - subst i. destruct (get src k) as [v|] eqn:G.
    + rewrite get_set_same by exact Hk.
      destruct (existsb (String.eqb k) ks); reflexivity.
    + destruct (existsb (String.eqb k) ks); reflexivity.
  - destruct (get src i) as [v|].
    + rewrite get_set_other by congruence. reflexivity.
    + reflexivity.
Qed.

(** The copy has every property of the source, but for [__proto__]. *)
Lemma get_copy_props src k :
  k <> "__proto__" -> get (copy_props src empty) k = get src k.
Proof.
  intros Hk. unfold copy_props. rewrite copy_loop_get by exact Hk.
  destruct (existsb (String.eqb k) (keys src)) eqn:E.
  - destruct (get src k); reflexivity.
  - destruct (get src k) eqn:G; [|reflexivity].
    assert (In k (keys src)) as Hin by (apply get_in_keys; congruence).
    assert (existsb (String.eqb k) (keys src) = true) as E'.
    { apply existsb_exists. exists k. split; [exact Hin|apply String.eqb_refl]. }
    congruence.
Qed.

Lemma get_proto_add_headers l o :
  get o "__proto__" = None -> get (add_headers l o) "__proto__" = None.
Proof.
  unfold add_headers. revert o.
  induction l as [|ev l IH]; intros o H; simpl; [exact H|].
  apply IH. destruct ev; try exact H. apply get_proto_set. exact H.
Qed.

End JSObjectFacts.

(* ===================================================================== *)
(** ** base64url: alphabet and round trip *)

Module Base64UrlFacts.
Import Base64Url.

Lemma sextet_of_char_of s : sextet_of (char_of s) = Some s.
Proof.
  destruct s as [[[[[b5 b4] b3] b2] b1] b0].
  destruct b5, b4, b3, b2, b1, b0; vm_compute; reflexivity.
Qed.

Lemma char_of_not_dot s : Ascii.eqb (char_of s) dot_char = false.
Proof.
  destruct s as [[[[[b5 b4] b3] b2] b1] b0].
  destruct b5, b4, b3, b2, b1, b0; vm_compute; reflexivity.
Qed.

(** Induction in steps of three characters. *)
Lemma string_ind3 (P : string -> Prop) :
  P EmptyString ->
  (forall a, P (String a EmptyString)) ->
  (forall a b, P (String a (String b EmptyString))) ->
  (forall a b c r, P r -> P (String a (String b (String c r)))) ->
  forall s, P s.
Proof.
  intros H0 H1 H2 H3 s.
  assert (P s /\ (forall a, P (String a s)) /\
          (forall a b, P (String a (String b s)))) as H; [|apply H].
  induction s as [|c s [IH0 [IH1 IH2]]].
  - auto.
  - repeat split; auto.
Qed.

Lemma encode_dot_free s : dot_free (encode s).
Proof.
  unfold dot_free. induction s as [|a|a b|a b c r IH] using string_ind3.
  - reflexivity.
  - destruct a. simpl. rewrite !char_of_not_dot. reflexivity.
  - destruct a, b. simpl. rewrite !char_of_not_dot. reflexivity.
  - destruct a, b, c. cbn [encode count_dots].
    rewrite !char_of_not_dot, IH. reflexivity.
Qed.

Lemma decode_encode s : decode (encode s) = Some s.
Proof.
  induction s as [|a|a b|a b c r IH] using string_ind3.
  - reflexivity.
  - destruct a. cbn [encode decode]. rewrite !sextet_of_char_of. reflexivity.
  - destruct a, b. cbn [encode decode]. rewrite !sextet_of_char_of. reflexivity.
  - destruct a, b, c. cbn [encode decode].
    rewrite !sextet_of_char_of, IH. reflexivity.
Qed.

Lemma StdUtils_encode_dot_free s : dot_free (Base64Url_encode StdUtils s).
Proof.
  apply encode_dot_free.
Qed.

Lemma StdUtils_encodeArray_dot_free b :
  dot_free (Base64Url_encodeArray StdUtils b).
Proof.
  apply encode_dot_free.
Qed.

End Base64UrlFacts.

(* ===================================================================== *)
(** ** Objects hold each key once *)

Module JSObjectOrder.
Import JSObject.

Lemma digit_value_bound c :
  is_digit c = true -> (N.of_nat (nat_of_ascii c - 48) < 10)%N.
Proof.
  unfold is_digit. intros H. apply andb_prop in H. destruct H as [H1 H2].
  apply Nat.leb_le in H1, H2. lia.
Qed.

Lemma digit_value_inj c1 c2 :
  is_digit c1 = true -> is_digit c2 = true ->
  N.of_nat (nat_of_ascii c1 - 48) = N.of_nat (nat_of_ascii c2 - 48) ->
  c1 = c2.
Proof.
  unfold is_digit. intros H1 H2 E.
  apply andb_prop in H1, H2. destruct H1 as [A1 _], H2 as [A2 _].
  apply Nat.leb_le in A1, A2.
  assert (nat_of_ascii c1 = nat_of_ascii c2) as X by lia.
  rewrite <- (ascii_nat_embedding c1), <- (ascii_nat_embedding c2), X.
  reflexivity.
Qed.

(** The value of a digit string fixes its accumulator's share. *)
Lemma digits_value_bounds s : forall acc n,
  digits_value acc s = Some n ->
  (acc * 10 ^ N.of_nat (String.length s) <= n <
   (acc + 1) * 10 ^ N.of_nat (String.length s))%N.
Proof.
  induction s as [|c s IH]; intros acc n H; simpl in H.
  - inversion H; subst. simpl. lia.
  - destruct (is_digit c) eqn:D; [|discriminate].
    apply IH in H. pose proof (digit_value_bound c D) as B.
    cbn [String.length]. rewrite Nat2N.inj_succ, N.pow_succ_r'.
    set (P := (10 ^ N.of_nat (String.length s))%N) in *.
    set (d := N.of_nat (nat_of_ascii c - 48)) in *.
    nia.
Qed.

Lemma digits_value_inj s1 : forall s2 acc1 acc2 n,
  String.length s1 = String.length s2 ->
  digits_value acc1 s1 = Some n ->
  digits_value acc2 s2 = Some n ->
  acc1 = acc2 /\ s1 = s2.
Proof.
  induction s1 as [|c1 s1 IH]; intros [|c2 s2] acc1 acc2 n L H1 H2;
    simpl in *; try discriminate.
  - split; congruence.
  - destruct (is_digit c1) eqn:D1; [|discriminate].
    destruct (is_digit c2) eqn:D2; [|discriminate].
    inversion L as [L'].
    destruct (IH _ _ _ _ L' H1 H2) as [E Es].
    pose proof (digit_value_bound c1 D1). pose proof (digit_value_bound c2 D2).
    assert (acc1 = acc2) by lia. subst acc2.
    split; [reflexivity|]. f_equal; [|exact Es].
    apply digit_value_inj; auto. lia.
Qed.

(** A canonical numeric key that does not start with 0 is at least 1 and
    has as many digits as its value needs. *)
Lemma leading_digit_bounds c s n :
  Ascii.eqb c "0"%char = false ->
  digits_value 0 (String c s) = Some n ->
  (10 ^ N.of_nat (String.length s) <= n <
   10 ^ N.of_nat (S (String.length s)))%N.
Proof.
  intros Hc H. simpl in H.
  destruct (is_digit c) eqn:D; [|discriminate].
  assert (1 <= N.of_nat (nat_of_ascii c - 48) < 10)%N as B.
  { split; [|apply digit_value_bound; exact D].
    unfold is_digit in D. apply andb_prop in D. destruct D as [D1 D2].
    apply Nat.leb_le in D1.
    assert (nat_of_ascii c <> 48) as N.
    { intros E. apply Ascii.eqb_neq in Hc. apply Hc.
      rewrite <- (ascii_nat_embedding c), E. reflexivity. }
    lia. }
  apply digits_value_bounds in H.
  rewrite Nat2N.inj_succ, N.pow_succ_r'.
  set (P := (10 ^ N.of_nat (String.length s))%N) in *.
  set (d := N.of_nat (nat_of_ascii c - 48)) in *.
  nia.
Qed.

Lemma array_index_inj k1 k2 n :
  array_index k1 = Some n -> array_index k2 = Some n -> k1 = k2.
Proof.
  unfold array_index. intros H1 H2.
  destruct k1 as [|c1 s1]; [discriminate|].
  destruct k2 as [|c2 s2]; [discriminate|].
  destruct (Ascii.eqb c1 "0"%char) eqn:Z1; destruct (Ascii.eqb c2 "0"%char) eqn:Z2.
  - apply Ascii.eqb_eq in Z1, Z2. subst.
    destruct s1; [|discriminate]. destruct s2; [|discriminate]. reflexivity.
  - destruct s1; [|discriminate]. inversion H1; subst n.
    destruct (digits_value 0 (String c2 s2)) as [m|] eqn:D; [|discriminate].
    destruct (m <? 4294967295)%N; [|discriminate]. inversion H2; subst m.
    apply (leading_digit_bounds _ _ _ Z2) in D.
    assert (0 < 10 ^ N.of_nat (String.length s2))%N
      by (apply N.neq_0_lt_0, N.pow_nonzero; discriminate).
    lia.
  - destruct s2; [|discriminate]. inversion H2; subst n.
    destruct (digits_value 0 (String c1 s1)) as [m|] eqn:D; [|discriminate].
    destruct (m <? 4294967295)%N; [|discriminate]. inversion H1; subst m.
    apply (leading_digit_bounds _ _ _ Z1) in D.
    assert (0 < 10 ^ N.of_nat (String.length s1))%N
      by (apply N.neq_0_lt_0, N.pow_nonzero; discriminate).
    lia.
  - destruct (digits_value 0 (String c1 s1)) as [m1|] eqn:D1; [|discriminate].
    destruct (m1 <? 4294967295)%N; [|discriminate]. inversion H1; subst m1.
    destruct (digits_value 0 (String c2 s2)) as [m2|] eqn:D2; [|discriminate].
    destruct (m2 <? 4294967295)%N; [|discriminate]. inversion H2; subst m2.
    pose proof (leading_digit_bounds _ _ _ Z1 D1) as B1.
    pose proof (leading_digit_bounds _ _ _ Z2 D2) as B2.
    assert (String.length s1 = String.length s2) as L.
    { destruct (Nat.lt_trichotomy (String.length s1) (String.length s2))
        as [Lt|[E|Lt]]; [|exact E|].
      - assert (10 ^ N.of_nat (S (String.length s1))
                <= 10 ^ N.of_nat (String.length s2))%N
          by (apply N.pow_le_mono_r; [discriminate|lia]).
        lia.
      - assert (10 ^ N.of_nat (S (String.length s2))
                <= 10 ^ N.of_nat (String.length s1))%N
          by (apply N.pow_le_mono_r; [discriminate|lia]).
        lia. }
    assert (String.length (String c1 s1) = String.length (String c2 s2)) as L'
      by (simpl; congruence).
    apply (digits_value_inj _ _ _ _ _ L' D1 D2).
Qed.

Lemma keys_set_named k v o k' :
  In k' (keys (set_named k v o)) -> k' = k \/ In k' (keys o).
Proof.
  induction o as [|[k0 v0] r IH]; simpl.
  - intros [E|[]]. auto.
  - destruct (String.eqb_spec k0 k); simpl.
    + intros [E|H]; auto.
    + intros [E|H]; auto. destruct (IH H); auto.
Qed.

Lemma keys_set_index k n v o k' :
  In k' (keys (set_index k n v o)) -> k' = k \/ In k' (keys o).
Proof.
  induction o as [|[k0 v0] r IH]; simpl.
  - intros [E|[]]. auto.
  - destruct (array_index k0) as [m|].
    + destruct (String.eqb_spec k0 k); simpl.
      * intros [E|H]; auto.
      * destruct (m <? n)%N; simpl.
        -- intros [E|H]; auto. destruct (IH H); auto.
        -- intros [E|[E|H]]; auto.
    + simpl. intros [E|[E|H]]; auto.
Qed.

Lemma ordered_set_named k v o :
  array_index k = None -> ordered o -> ordered (set_named k v o).
Proof.
  intros Hk. induction o as [|[k0 v0] r IH]; simpl.
  - intros _. split; [intros k' []|exact I].
  - intros [H Hr]. destruct (String.eqb_spec k0 k) as [E|N]; simpl.
    + subst k0. split; assumption.
    + split; [|apply IH; exact Hr].
      intros k' Hin. apply keys_set_named in Hin. destruct Hin as [E|Hin].
      * subst k'. split; [congruence|]. unfold later. rewrite Hk. exact I.
      * apply H. exact Hin.
Qed.

Lemma ordered_set_index k n v o :
  array_index k = Some n -> ordered o -> ordered (set_index k n v o).
Proof.
  intros Hk. induction o as [|[k0 v0] r IH]; simpl.
  - intros _. split; [intros k' []|exact I].
  - intros [H Hr]. destruct (array_index k0) as [m|] eqn:Hm.
    + destruct (String.eqb_spec k0 k) as [E|N]; simpl.
      * subst k0. split; assumption.
      * destruct (m <? n)%N eqn:Lt; simpl.
        -- split; [|apply IH; exact Hr].
           intros k' Hin. apply keys_set_index in Hin.
           destruct Hin as [E|Hin]; [|apply H; exact Hin].
           subst k'. split; [congruence|]. unfold later. rewrite Hk.
           exists m. split; [exact Hm|]. apply N.ltb_lt. exact Lt.
        -- apply N.ltb_ge in Lt.
           assert (n < m)%N as Lt'.
           { destruct (N.eq_dec n m) as [E|NE]; [|lia]. subst m.
             elim N. apply (array_index_inj _ _ _ Hm Hk). }
           split; [|split; assumption].
           intros k' [E|Hin].
           ++ subst k'. split; [exact N|]. unfold later. rewrite Hm.
              exists n. auto.
           ++ destruct (H _ Hin) as [_ L]. unfold later in *.
              destruct (array_index k') as [n'|] eqn:Hn'.
              ** destruct L as [m' [Em L]]. rewrite Hm in Em.
                 inversion Em; subst m'.
                 split; [intros E; subst k'; rewrite Hk in Hn';
                         inversion Hn'; lia|].
                 exists n. split; [exact Hk|lia].
              ** split; [intros E; subst k'; congruence|exact I].
    + simpl. split; [|split; assumption].
      intros k' [E|Hin].
      * subst k'. split; [intros E; subst k0; congruence|].
        unfold later. rewrite Hm. exact I.
      * destruct (H _ Hin) as [_ L]. unfold later in *.
        destruct (array_index k') as [n'|] eqn:Hn'.
        -- destruct L as [m' [Em _]]. congruence.
        -- split; [intros E; subst k'; congruence|exact I].
Qed.

Lemma ordered_set o k v : ordered o -> ordered (set o k v).
Proof.
  intros H. unfold set. destruct (String.eqb k "__proto__"); [exact H|].
  destruct (array_index k) eqn:E.
  - apply ordered_set_index; assumption.
  - apply ordered_set_named; assumption.
Qed.

Lemma ordered_copy_props src dst : ordered dst -> ordered (copy_props src dst).
Proof.
  unfold copy_props. generalize (keys src). intros ks. revert dst.
  induction ks as [|i ks IH]; intros dst H; simpl; [exact H|].
  apply IH. destruct (get src i); [apply ordered_set|]; exact H.
Qed.

Lemma ordered_header_object C o : ordered (header_object C o).
Proof.
  unfold header_object. repeat apply ordered_set.
  apply ordered_copy_props. exact I.
Qed.

Lemma ordered_add_headers l o : ordered o -> ordered (add_headers l o).
Proof.
  unfold add_headers. revert o.
  induction l as [|ev l IH]; intros o H; simpl; [exact H|].
  apply IH. destruct ev; try exact H. apply ordered_set. exact H.
Qed.

(** In an ordered object the members with a given key are at most the
    one that [get] finds. *)
Lemma ordered_members o k v :
  ordered o -> get o k = Some v -> members k o = [(k, v)].
Proof.
  unfold members.
  induction o as [|[k0 v0] r IH]; simpl; [discriminate|].
  intros [H Hr] G. destruct (String.eqb_spec k0 k) as [E|N].
  - subst k0. inversion G; subst v0. f_equal.
    clear - H. induction r as [|[k1 v1] r IH]; simpl; [reflexivity|].
    destruct (String.eqb_spec k1 k) as [E|N].
    + subst k1. destruct (H k) as [X _]; [left; reflexivity|]. congruence.
    + apply IH. intros k' Hin. apply H. right. exact Hin.
  - apply IH; assumption.
Qed.

Lemma ordered_NoDup o : ordered o -> NoDup (keys o).
Proof.
  induction o as [|[k0 v0] r IH]; simpl; intros H; constructor.
  - intros Hin. destruct H as [H _]. destruct (H _ Hin) as [X _]. congruence.
  - apply IH. apply H.
Qed.

End JSObjectOrder.

(* ===================================================================== *)
(** ** The copy loop yields a copy *)

Module JSObjectCopy.
Import JSObject.

Lemma ordered_app_l p q : ordered (p ++ q) -> ordered p.
Proof.
  induction p as [|[k v] p IH]; simpl; [intros _; exact I|].
  intros [H Hr]. split; [|apply IH; exact Hr].
  intros k' Hin. apply H. unfold keys in *. rewrite map_app.
  apply in_or_app. left. exact Hin.
Qed.

Lemma ordered_app_r p q : ordered (p ++ q) -> ordered q.
Proof.
  induction p as [|[k v] p IH]; simpl; [auto|]. intros [_ Hr]. auto.
Qed.

Lemma ordered_last_fresh p k v q :
  ordered (p ++ (k, v) :: q) -> ~ In k (keys p).
Proof.
  induction p as [|[k0 v0] p IH]; simpl; [tauto|].
  intros [H Hr] [E|Hin].
  - subst k0. destruct (H k) as [X _]; [|congruence].
    unfold keys. rewrite map_app. apply in_or_app. right. left. reflexivity.
  - apply (IH Hr Hin).
Qed.

Lemma get_fresh p k v q : ~ In k (keys p) -> get (p ++ (k, v) :: q) k = Some v.
Proof.
  induction p as [|[k0 v0] p IH]; simpl; intros H.
  - rewrite String.eqb_refl. reflexivity.
  - destruct (String.eqb_spec k0 k) as [E|N]; [tauto|]. apply IH. tauto.
Qed.

Lemma set_named_fresh p k v :
  ~ In k (keys p) -> set_named k v p = p ++ [(k, v)].
Proof.
  induction p as [|[k0 v0] p IH]; simpl; intros H; [reflexivity|].
  destruct (String.eqb_spec k0 k) as [E|N]; [tauto|].
  rewrite IH by tauto. reflexivity.
Qed.

Lemma set_index_last p k n v :
  array_index k = Some n -> ordered (p ++ [(k, v)]) ->
  set_index k n v p = p ++ [(k, v)].
Proof.
  intros Hk. induction p as [|[k0 v0] p IH]; simpl; intros H; [reflexivity|].
  destruct H as [H Hr].
  destruct (H k) as [N L].
  { unfold keys. rewrite map_app. apply in_or_app. right. left. reflexivity. }
  unfold later in L. rewrite Hk in L. destruct L as [m [Hm Lt]].
  rewrite Hm. destruct (String.eqb_spec k0 k) as [E|_]; [congruence|].
  apply N.ltb_lt in Lt. rewrite Lt, IH by exact Hr. reflexivity.
Qed.

Lemma set_last p k v :
  k <> "__proto__" -> ordered (p ++ [(k, v)]) -> set p k v = p ++ [(k, v)].
Proof.
  intros Hp H. unfold set.
  destruct (String.eqb_spec k "__proto__"); [contradiction|].
  destruct (array_index k) eqn:E.
  - apply set_index_last; assumption.
  - apply set_named_fresh. apply (ordered_last_fresh p k v []). exact H.
Qed.

Lemma copy_loop_id src q : forall p,
  src = p ++ q -> ordered src -> ~ In "__proto__" (keys src) ->
  fold_left
    (fun h i => match get src i with
                | Some v => set h i v
                | None => h
                end) (keys q) p = src.
Proof.
  induction q as [|[k v] q IH]; intros p E Ho Hp; simpl.
  - rewrite app_nil_r in E. congruence.
  - assert (get src k = Some v) as G.
    { rewrite E. apply get_fresh. apply (ordered_last_fresh p k v q).
      rewrite <- E. exact Ho. }
    rewrite G.
    assert (src = (p ++ [(k, v)]) ++ q) as E'
      by (rewrite <- app_assoc; exact E).
    rewrite set_last.
    + apply IH; assumption.
    + intros X. apply Hp. rewrite E. unfold keys. rewrite map_app.
      apply in_or_app. right. left. exact X.
    + apply (ordered_app_l _ q). rewrite <- E'. exact Ho.
Qed.

(** Copying an object into an empty one gives the same object. *)
Lemma copy_props_id o :
  ordered o -> get o "__proto__" = None -> copy_props o empty = o.
Proof.
  intros Ho Hp. unfold copy_props, empty.
  apply copy_loop_id; [reflexivity|exact Ho|].
  intros Hin. apply JSObjectFacts.get_in_keys in Hin. contradiction.
Qed.

Lemma header_object_eq C l :
  header_object C (add_headers l empty) =
  set (set (add_headers l empty) "alg" (getKeyEncryptionAlgorithm C))
      "enc" (getContentEncryptionAlgorithm C).
Proof.
  unfold header_object. rewrite copy_props_id; [reflexivity| |].
  - apply JSObjectOrder.ordered_add_headers. exact I.
  - apply JSObjectFacts.get_proto_add_headers. reflexivity.
Qed.

End JSObjectCopy.

(* ===================================================================== *)
(** ** Reading traces *)

Lemma origin_eqb_eq a b : origin_eqb a b = true -> a = b.
Proof.
  destruct a, b; simpl; congruence.
Qed.

Lemma first_failure_some tr org e :
  In (LSettled org (inr e)) tr -> exists e0, first_failure tr = Some e0.
Proof.
  induction tr as [|l tr IH]; simpl; [tauto|].
  intros [E|H].
  - subst l. eauto.
  - destruct l as [| | | | | | |o' [v|e']|]; eauto.
Qed.

Lemma first_failure_in tr e0 :
  first_failure tr = Some e0 -> exists org, In (LSettled org (inr e0)) tr.
Proof.
  induction tr as [|l tr IH]; simpl; [discriminate|].
  intros H.
  destruct l as [| | | | | | |o' [v|e']|];
    try (destruct (IH H) as [org Hin]; exists org; right; exact Hin).
  inversion H; subst. exists o'. left. reflexivity.
Qed.

Lemma first_failure_none tr org e :
  first_failure tr = None -> ~ In (LSettled org (inr e)) tr.
Proof.
  intros H Hin. destruct (first_failure_some _ _ _ Hin) as [e0 E]. congruence.
Qed.


Lemma fulfilled_with_in o tr v :
  fulfilled_with o tr = Some v -> In (LSettled o (inl v)) tr.
Proof.
  induction tr as [|l tr IH]; simpl; [discriminate|].
  intros H.
  destruct l as [| | | | | | |o' [v'|e']|]; try (right; apply IH; exact H).
  destruct (origin_eqb o' o) eqn:E.
  - apply origin_eqb_eq in E. inversion H; subst. left. reflexivity.
  - right. apply IH. exact H.
Qed.

Lemma in_filter_sync (tr : list label) calls l :
  filter is_sync tr = calls -> In l tr -> is_sync l = true -> In l calls.
Proof.
  intros E Hin Hs. rewrite <- E. apply filter_In. auto.
Qed.

(** [wrap_joined], in terms of what precedes a [wrapCek]. *)
Lemma wrap_joined_sound pre : forall tr key cek c k p post,
  wrap_joined key cek tr ->
  tr = pre ++ LWrapCek c k p :: post ->
  (key = Some k \/ In (LSettled OCaller (inl (VKey k))) pre) /\
  (cek = Some c \/ In (LSettled OCreateCek (inl (VKey c))) pre).
Proof.
  induction pre as [|l pre IH]; intros tr key cek c k p post H E; subst tr.
  - simpl in H. destruct H as [Hk [Hc _]]. auto.
  - simpl app in H.
    assert (forall key' cek',
      wrap_joined key' cek' (pre ++ LWrapCek c k p :: post) ->
      (key' = key \/ (exists k', key' = Some k' /\ l = LSettled OCaller (inl (VKey k')))) ->
      (cek' = cek \/ (exists c', cek' = Some c' /\ l = LSettled OCreateCek (inl (VKey c')))) ->
      (key = Some k \/ In (LSettled OCaller (inl (VKey k))) (l :: pre)) /\
      (cek = Some c \/ In (LSettled OCreateCek (inl (VKey c))) (l :: pre))) as Step.
    { intros key' cek' H' Hkey Hcek.
      destruct (IH _ _ _ _ _ _ _ H' eq_refl) as [A B]. split.
      - destruct A as [A|A]; [|right; right; exact A].
        destruct Hkey as [Hkey|[k' [Hkey Hl]]]; [left; congruence|].
        right. left. congruence.
      - destruct B as [B|B]; [|right; right; exact B].
        destruct Hcek as [Hcek|[c' [Hcek Hl]]]; [left; congruence|].
        right. left. congruence. }
    destruct l as [| | | | | | |o' [v|e']|]; simpl in H;
      try (apply (Step key cek); [exact H| auto | auto]).
    + destruct H as [_ [_ H]]. apply (Step key cek); auto.
    + destruct o'; try (apply (Step key cek); [exact H| auto | auto]);
        destruct v as [k'| | | | |];
        try (apply (Step key cek); [exact H| auto | auto]).
      * apply (Step (Some k') cek); [exact H| eauto | auto].
      * apply (Step key (Some k')); [exact H| auto | eauto].
    + destruct o'; apply (Step key cek); auto.
Qed.

(** [snapshot_order], in terms of what precedes a Cryptographer call. *)
Lemma snapshot_order_sound pre : forall tr copied l post,
  snapshot_order copied tr = true ->
  tr = pre ++ l :: post ->
  is_cryptographer_call l = true ->
  if is_createCek l
  then copied = false /\ forall o, ~ In (LSnapshot o) pre
  else copied = true \/ exists o, In (LSnapshot o) pre.
Proof.
  induction pre as [|x pre IH]; intros tr copied l post H E Hl; subst tr.
  - simpl app in H.
    destruct l as [| | | | | | |o' r|]; try discriminate Hl;
      cbn [snapshot_order] in H; apply andb_prop in H; destruct H as [H _];
      cbn [is_createCek]; [|left; exact H..].
    split; [destruct copied; [discriminate H|reflexivity]|intros o []].
  - simpl app in H.
    assert (forall c',
      snapshot_order c' (pre ++ l :: post) = true ->
      c' = copied -> is_snapshot x = false ->
      if is_createCek l
      then copied = false /\ forall o, ~ In (LSnapshot o) (x :: pre)
      else copied = true \/ exists o, In (LSnapshot o) (x :: pre)) as Frame.
    { intros c' H' Ec Hx. subst c'.
      pose proof (IH _ _ _ _ H' eq_refl Hl) as R.
      destruct (is_createCek l).
      - destruct R as [R1 R2]. split; [exact R1|].
        intros o [X|X]; [subst x; discriminate|exact (R2 o X)].
      - destruct R as [R|[o R]]; [left; exact R|].
        right. exists o. right. exact R. }
    destruct x as [|src| | | | | |o' r|]; cbn [snapshot_order] in H;
      try (apply andb_prop in H; destruct H as [Hc H]);
      try (apply (Frame copied); [exact H|reflexivity|reflexivity]).
    pose proof (IH _ _ _ _ H eq_refl Hl) as R.
    destruct (is_createCek l).
    + destruct R as [R _]. discriminate R.
    + right. exists src. left. reflexivity.
Qed.


Lemma prefix_refl {A} (a : list A) : a = a ++ skipn (length a) a.
Proof.
  rewrite skipn_all, app_nil_r. reflexivity.
Qed.

Lemma prefix_skipn {A} (a z : list A) : skipn (length a) (a ++ z) = z.
Proof.
  induction a as [|x a IH]; simpl; auto.
Qed.

Lemma prefix_intro {A} (a b z : list A) :
  b = a ++ z -> b = a ++ skipn (length a) b.
Proof.
  intros E. subst b. rewrite prefix_skipn. reflexivity.
Qed.

Lemma advances_refl A : advances A A.
Proof.
  split; [apply prefix_refl|right; reflexivity].
Qed.

Lemma advances_trans A B C0 : advances A B -> advances B C0 -> advances A C0.
Proof.
  intros [P1 S1] [P2 S2]. split.
  - apply prefix_intro
      with (z := skipn (length (trace A)) (trace B) ++
                 skipn (length (trace B)) (trace C0)).
    rewrite app_assoc, <- P1. exact P2.
  - destruct S1 as [S1|S1]; [left; exact S1|].
    destruct S2 as [S2|S2]; [|right; congruence].
    destruct (promise_state A 7) eqn:E; [left; reflexivity| |]; congruence.
Qed.

(* ===================================================================== *)
(** ** Every session *)

Lemma filter_implied {A} (f g : A -> bool) (l : list A) :
  (forall x, f x = true -> g x = true) ->
  filter f (filter g l) = filter f l.
Proof.
  intros H. induction l as [|x l IH]; simpl; [reflexivity|].
  destruct (g x) eqn:G; simpl.
  - rewrite IH. reflexivity.
  - destruct (f x) eqn:F; [|exact IH]. apply H in F. congruence.
Qed.

Lemma add_headers_app l1 l2 o :
  add_headers (l1 ++ l2) o = add_headers l2 (add_headers l1 o).
Proof.
  unfold add_headers. apply fold_left_app.
Qed.

Lemma add_headers_filter l o :
  add_headers (filter is_addHeader l) o = add_headers l o.
Proof.
  unfold add_headers. revert o.
  induction l as [|ev l IH]; intros o; [reflexivity|].
  destruct ev; simpl; apply IH.
Qed.

Lemma add_headers_no_addHeader l o :
  add_headers (filter (fun ev => negb (is_addHeader ev)) l) o = o.
Proof.
  unfold add_headers. induction l as [|ev l IH]; [reflexivity|].
  destruct ev; simpl; exact IH.
Qed.

(** A promise that has settled was settled once: the value in the trace
    is the value it holds. *)
Lemma settled_once tr o v :
  distinct (settled_origins tr) = true ->
  In (LSettled o (inl v)) tr -> fulfilled_with o tr = Some v.
Proof.
  induction tr as [|l tr IH]; simpl; [tauto|].
  intros D [E|Hin].
  - subst l. simpl. destruct o; reflexivity.
  - destruct l as [| | | | | | |o' r|]; auto.
    simpl in D. apply andb_prop in D. destruct D as [D1 D2].
    assert (origin_eqb o' o = false) as N.
    { destruct (origin_eqb o' o) eqn:E; [|reflexivity].
      apply origin_eqb_eq in E. subst o'.
      assert (existsb (origin_eqb o) (settled_origins tr) = true) as X.
      { apply existsb_exists. exists o. split; [|destruct o; reflexivity].
        clear - Hin. induction tr as [|l tr IH]; simpl in *; [tauto|].
        destruct Hin as [E|Hin]; [subst l; left; reflexivity|].
        destruct l; auto. right. auto. }
      rewrite X in D1. discriminate. }
    destruct r as [v'|e']; [rewrite N|]; auto.
Qed.

Section Sessions.

Variables (U : Utils) (C : Cryptographer).

Lemma session_fst before plain_text after :
  fst (session U C before plain_text after) = 7.
Proof.
  destruct (session_eq U C before plain_text after) as [r [_ E]].
  rewrite E. reflexivity.
Qed.

Lemma result_eq before plain_text after :
  result U C before plain_text after =
  promise_state (async (snd (session U C before plain_text after))) 7.
Proof.
  unfold result. pose proof (session_fst before plain_text after) as F.
  destruct (session U C before plain_text after) as [p W].
  simpl in *. subst p. reflexivity.
Qed.

Lemma session_invariant before plain_text after :
  let o := headers_at_call U C before in
  invariant U (protected_header U C o) (createIV C 0)
    (arrayFromString U (protected_header U C o))
    (arrayFromString U plain_text) o
    (async (snd (session U C before plain_text after))).
Proof.
  intros o. unfold o. rewrite headers_at_call_eq.
  destruct (session_eq U C before plain_text after) as [r [Hr E]].
  rewrite E. cbn [snd async].
  apply (explored_sound U _ _ _ _ (after_call_explored U _ _ _ _ _ _ Hr)).
Qed.

Lemma session_advances before plain_text after more :
  advances (async (snd (session U C before plain_text after)))
           (async (snd (session U C before plain_text (after ++ more)))).
Proof.
  destruct (before_eq U C before) as [r [Hr E]].
  unfold session. rewrite E, (encrypt_eq _ _ _ _ _ Hr).
  cbn [snd]. rewrite !run_events_async. cbn [async].
  apply (explored_edges U _ _ _ _ advances_refl advances_trans
           (after_call_explored U _ _ _ _ _ _ Hr)).
Qed.

(** After [patience] the microtasks of a call have run. *)
Lemma session_quiet before plain_text after :
  queue (async (snd (session U C before plain_text (after ++ patience)))) = [].
Proof.
  destruct (session_eq U C before plain_text (after ++ patience))
    as [r [Hr E]].
  rewrite E. cbn [snd async]. rewrite fold_left_app.
  match goal with
  | |- context [after_call ?h ?i ?a ?p ?o r] =>
      destruct (explored_reach U _ _ _ _ after
                  (after_call_explored U h i a p o r Hr)) as [m [Hm Hx]]
  end.
  apply (explored_quiet U _ _ _ _ Hx). unfold patience. lia.
Qed.


Lemma observed_grows before plain_text after more :
  exists ext,
    observed U C before plain_text (after ++ more) =
    observed U C before plain_text after ++ ext.
Proof.
  destruct (session_advances before plain_text after more) as [P _].
  unfold observed. rewrite P. eexists. reflexivity.
Qed.

Lemma session_this before plain_text after :
  this (snd (session U C before plain_text after)) = the_encrypter C.
Proof.
  destruct (session_eq U C before plain_text after) as [r [_ E]].
  rewrite E. reflexivity.
Qed.

Lemma session_heap before plain_text after :
  heap (snd (session U C before plain_text after)) =
  [add_headers after (headers_at_call U C before);
   header_object C (headers_at_call U C before)].
Proof.
  rewrite headers_at_call_eq.
  destruct (session_eq U C before plain_text after) as [r [_ E]].
  rewrite E. reflexivity.
Qed.

(** A token is the verdict of the trace. *)
Lemma result_verdict before plain_text after token :
  result U C before plain_text after = Fulfilled token ->
  verdict U (protected_header U C (headers_at_call U C before))
    (createIV C 0) (observed U C before plain_text after) = Fulfilled token.
Proof.
  rewrite result_eq.
  apply (session_invariant before plain_text after).
Qed.


(** A fulfilled result is the compact serialization of what was
    delivered. *)
Lemma result_fulfilled before plain_text after token :
  result U C before plain_text after = Fulfilled token ->
  exists wrapped d,
    token = VString (compact U (protected_header U C (headers_at_call U C before))
                       wrapped (createIV C 0) (cipher d) (tag d)) /\
    In (LSettled OWrapCek (inl (VBytes wrapped)))
       (observed U C before plain_text after) /\
    In (LSettled OEncrypt (inl (VObject d)))
       (observed U C before plain_text after).
Proof.
  intros H. apply result_verdict in H. revert H. unfold verdict.
  destruct (first_failure _); [discriminate|].
  destruct (fulfilled_with OWrapCek _) as [[ |w| | | | ]|] eqn:Ew; try discriminate.
  destruct (fulfilled_with OEncrypt _) as [[ | |d| | | ]|] eqn:Ed; try discriminate.
  intros H. inversion H; subst. exists w, d.
  repeat split; [apply fulfilled_with_in; exact Ew|apply fulfilled_with_in; exact Ed].
Qed.

End Sessions.

(** With two failures the result carries the reason that reaches the final
    [Promise.all] first, which need not be that of the earlier failure:
    the rejection of the key promise takes one microtask more than that of
    the content encryption. *)
Example later_failure_reaches_first :
  result StdUtils mock [KeyRejected "no key"] "hi"
    ([EncryptRejected "no cipher"] ++ patience) = Rejected "no cipher" /\
  result StdUtils mock [] "hi"
    ([KeyRejected "no key"; Microtask; EncryptRejected "no cipher"] ++ patience)
    = Rejected "no key".
Proof.
  split; vm_compute; reflexivity.
Qed.

(* ===================================================================== *)
(** * The claims *)

Lemma split_dot_head h rest :
  dot_free h -> hd_error (split_dot (h +++ "." +++ rest)) = Some h.
Proof.
  intros H. unfold split_dot.
  change ("." +++ rest) with (String dot_char rest).
  rewrite split_dot_aux_dot by exact H. reflexivity.
Qed.

Lemma header_of_call_eq (U : Utils) (C : Cryptographer) before plain_text after :
  header_of_call U C before plain_text after =
  header_object C (headers_at_call U C before).
Proof.
  unfold header_of_call. rewrite session_heap. reflexivity.
Qed.

(** C1: for every plaintext, the empty string included, a fulfilled result
    of [encrypt] is a string of exactly five base64url segments joined by
    ".", that is with exactly four separators, in the order protected
    header, wrapped CEK, IV, ciphertext, tag. *)
Theorem C1_five_segments (U : Utils) (C : Cryptographer)
    (before after : list event) (plain_text : string) (token : value) :
  (forall s, dot_free (Base64Url_encode U s)) ->
  (forall b, dot_free (Base64Url_encodeArray U b)) ->
  result U C before plain_text after = Fulfilled token ->
  exists wrapped d s,
    token = VString s /\
    In (LSettled OWrapCek (inl (VBytes wrapped)))
       (observed U C before plain_text after) /\
    In (LSettled OEncrypt (inl (VObject d)))
       (observed U C before plain_text after) /\
    split_dot s =
      [protected_header U C (headers_at_call U C before);
       Base64Url_encodeArray U wrapped;
       Base64Url_encodeArray U (createIV C 0);
       Base64Url_encodeArray U (cipher d);
       Base64Url_encodeArray U (tag d)] /\
    count_dots s = 4.
Proof.
  intros Hs Hb H.
  destruct (result_fulfilled U C _ _ _ _ H) as [w [d [E [Hw Hd]]]].
  exists w, d. eexists. split; [exact E|].
  split; [exact Hw|]. split; [exact Hd|].
  unfold compact. split.
  - apply split_dot_five; auto. apply Hs.
  - apply count_dots_five; auto. apply Hs.
Qed.

Lemma C1_witness :
  exists wrapped d s,
    VString sample_token = VString s /\
    In (LSettled OWrapCek (inl (VBytes wrapped)))
       (observed StdUtils mock sample_before EmptyString sample_after) /\
    In (LSettled OEncrypt (inl (VObject d)))
       (observed StdUtils mock sample_before EmptyString sample_after) /\
    split_dot s =
      [protected_header StdUtils mock (headers_at_call StdUtils mock sample_before);
       Base64Url_encodeArray StdUtils wrapped;
       Base64Url_encodeArray StdUtils (createIV mock 0);
       Base64Url_encodeArray StdUtils (cipher d);
       Base64Url_encodeArray StdUtils (tag d)] /\
    count_dots s = 4.
Proof.
  apply (C1_five_segments StdUtils mock sample_before sample_after EmptyString).
  - apply Base64UrlFacts.StdUtils_encode_dot_free.
  - apply Base64UrlFacts.StdUtils_encodeArray_dot_free.
  - vm_compute. reflexivity.
Defined.

(** C2: in every call, the bytes passed as AAD to the Cryptographer's
    content encryption are the bytes of the protected-header string, and
    that string is the first segment of the resulting token. *)
Theorem C2_aad_is_header_segment (U : Utils) (C : Cryptographer)
    (before after : list event) (plain_text : string) :
  (forall s, dot_free (Base64Url_encode U s)) ->
  exists h,
    filter is_encrypt (observed U C before plain_text after) =
      [LEncrypt (createIV C 0) (arrayFromString U h) 1
         (arrayFromString U plain_text) 4] /\
    forall s,
      result U C before plain_text after = Fulfilled (VString s) ->
      hd_error (split_dot s) = Some h.
Proof.
  intros Hs. exists (protected_header U C (headers_at_call U C before)).
  split.
  - destruct (session_invariant U C before plain_text after)
      as [_ [_ [Hsync _]]].
    unfold observed.
    rewrite <- (filter_implied is_encrypt is_sync)
      by (intros [ ]; cbv; congruence).
    rewrite Hsync. reflexivity.
  - intros s H.
    destruct (result_fulfilled U C _ _ _ _ H) as [w [d [E _]]].
    inversion E; subst s. unfold compact.
    apply split_dot_head. apply Hs.
Qed.

Lemma C2_witness :
  exists h,
    filter is_encrypt (observed StdUtils mock sample_before EmptyString sample_after) =
      [LEncrypt (createIV mock 0) (arrayFromString StdUtils h) 1
         (arrayFromString StdUtils EmptyString) 4] /\
    forall s,
      result StdUtils mock sample_before EmptyString sample_after =
        Fulfilled (VString s) ->
      hd_error (split_dot s) = Some h.
Proof.
  apply (C2_aad_is_header_segment StdUtils mock sample_before sample_after
           EmptyString).
  apply Base64UrlFacts.StdUtils_encode_dot_free.
Defined.




Lemma get_header_object_alg C o :
  JSObject.get (header_object C o) "alg" = Some (getKeyEncryptionAlgorithm C).
Proof.
  unfold header_object.
  rewrite JSObjectFacts.get_set_other by discriminate.
  apply JSObjectFacts.get_set_same. discriminate.
Qed.

Lemma get_header_object_enc C o :
  JSObject.get (header_object C o) "enc" = Some (getContentEncryptionAlgorithm C).
Proof.
  unfold header_object. apply JSObjectFacts.get_set_same. discriminate.
Qed.

Lemma get_header_object_other C o k :
  k <> "alg" -> k <> "enc" -> k <> "__proto__" ->
  JSObject.get (header_object C o) k = JSObject.get o k.
Proof.
  intros Ha He Hp. unfold header_object.
  rewrite !JSObjectFacts.get_set_other by congruence.
  apply JSObjectFacts.get_copy_props. exact Hp.
Qed.

Lemma get_header_object_proto C o :
  JSObject.get (header_object C o) "__proto__" = None.
Proof.
  unfold header_object, copy_props.
  rewrite !JSObjectFacts.get_set_other by discriminate.
  generalize (JSObject.keys o). intros ks.
  assert (JSObject.get JSObject.empty "__proto__" = None) as H by reflexivity.
  revert H. generalize JSObject.empty.
  induction ks as [|i ks IH]; intros dst H; simpl; [exact H|].
  apply IH. destruct (JSObject.get o i); [|exact H].
  apply JSObjectFacts.get_proto_set. exact H.
Qed.

(** C4: the decoded first segment of the token is the JSON serialization
    of the snapshot of the header map in which [alg] and [enc] are the
    Cryptographer's key-encryption and content-encryption algorithm
    identifiers, whatever [addHeader] was given for them before; every
    other header is as it was when [encrypt] was invoked. *)
Theorem C4_alg_enc_override (U : Utils) (C : Cryptographer)
    (decode : string -> option string)
    (before after : list event) (plain_text : string) (s : string) :
  (forall x, decode (Base64Url_encode U x) = Some x) ->
  (forall x, dot_free (Base64Url_encode U x)) ->
  result U C before plain_text after = Fulfilled (VString s) ->
  exists segment headers,
    hd_error (split_dot s) = Some segment /\
    decode segment = Some (JSON.stringify headers) /\
    nth_error (heap (snd (session U C before plain_text after))) 1 = Some headers /\
    headers =
      JSObject.set
        (JSObject.set (headers_at_call U C before)
           "alg" (getKeyEncryptionAlgorithm C))
        "enc" (getContentEncryptionAlgorithm C) /\
    NoDup (JSObject.keys headers) /\
    JSObject.get headers "alg" = Some (getKeyEncryptionAlgorithm C) /\
    JSObject.get headers "enc" = Some (getContentEncryptionAlgorithm C) /\
    forall k, k <> "alg" -> k <> "enc" ->
      JSObject.get headers k = JSObject.get (headers_at_call U C before) k.
Proof.
  intros Hdec Hs H.
  destruct (result_fulfilled U C _ _ _ _ H) as [w [d [E _]]].
  inversion E; subst s.
  exists (protected_header U C (headers_at_call U C before)),
         (header_object C (headers_at_call U C before)).
  split; [unfold compact; apply split_dot_head; apply Hs|].
  split; [apply Hdec|].
  split; [rewrite session_heap; reflexivity|].
  split; [rewrite headers_at_call_eq; apply JSObjectCopy.header_object_eq|].
  split; [apply JSObjectOrder.ordered_NoDup, JSObjectOrder.ordered_header_object|].
  split; [apply get_header_object_alg|].
  split; [apply get_header_object_enc|].
  intros k Ha He.
  destruct (String.eqb_spec k "__proto__") as [Ep|Np].
  - subst k. rewrite get_header_object_proto, headers_at_call_eq.
    symmetry. apply JSObjectFacts.get_proto_add_headers. reflexivity.
  - apply get_header_object_other; assumption.
Qed.

Lemma C4_witness :
  exists segment headers,
    hd_error (split_dot alg_token) = Some segment /\
    Base64Url.decode segment = Some (JSON.stringify headers) /\
    nth_error (heap (snd (session StdUtils mock alg_before "hi" sample_after))) 1
      = Some headers /\
    headers =
      JSObject.set
        (JSObject.set (headers_at_call StdUtils mock alg_before)
           "alg" (getKeyEncryptionAlgorithm mock))
        "enc" (getContentEncryptionAlgorithm mock) /\
    NoDup (JSObject.keys headers) /\
    JSObject.get headers "alg" = Some (getKeyEncryptionAlgorithm mock) /\
    JSObject.get headers "enc" = Some (getContentEncryptionAlgorithm mock) /\
    forall k, k <> "alg" -> k <> "enc" ->
      JSObject.get headers k =
      JSObject.get (headers_at_call StdUtils mock alg_before) k.
Proof.
  apply (C4_alg_enc_override StdUtils mock Base64Url.decode alg_before
           sample_after "hi" alg_token).
  - apply Base64UrlFacts.decode_encode.
  - apply Base64UrlFacts.StdUtils_encode_dot_free.
  - vm_compute. reflexivity.
Defined.

(** C5, as the claim has it, fails: [createCek] is invoked before the
    header map is copied. *)
Lemma C5_counterexample :
  ~ snapshot_first (observed StdUtils mock sample_before "hi" []).
Proof.
  intros H.
  destruct (H [] (LCreateCek 1)
              (tl (observed StdUtils mock sample_before "hi" [])))
    as [o []].
  - vm_compute. reflexivity.
  - reflexivity.
Qed.

(** C5, amended: in every call the header map is copied during the call
    itself: after [createCek] has been invoked, and before every other
    Cryptographer operation ([getKeyEncryptionAlgorithm],
    [getContentEncryptionAlgorithm], [createIV], [encrypt], [wrapCek]). *)
Theorem C5_snapshot_after_createCek (U : Utils) (C : Cryptographer)
    (before after : list event) (plain_text : string)
    (pre post : list label) (l : label) :
  observed U C before plain_text after = pre ++ l :: post ->
  is_cryptographer_call l = true ->
  if is_createCek l
  then (forall o, ~ In (LSnapshot o) pre) /\
       In (LSnapshot (headers_at_call U C before)) post
  else In (LSnapshot (headers_at_call U C before)) pre.
Proof.
  intros E Hl.
  destruct (session_invariant U C before plain_text after)
    as [_ [_ [Hsync [_ [_ [_ [Hord _]]]]]]].
  fold (observed U C before plain_text after) in Hsync, Hord.
  assert (forall o, In (LSnapshot o) (observed U C before plain_text after) ->
          o = headers_at_call U C before) as Same.
  { intros o Hin.
    pose proof (in_filter_sync _ _ _ Hsync Hin eq_refl) as X.
    simpl in X.
    repeat (destruct X as [X|X]; [try discriminate; congruence|]).
    contradiction. }
  assert (In (LSnapshot (headers_at_call U C before))
             (observed U C before plain_text after)) as Here.
  { assert (In (LSnapshot (headers_at_call U C before))
               (filter is_sync (observed U C before plain_text after))) as X
      by (rewrite Hsync; simpl; auto).
    apply filter_In in X. apply X. }
  pose proof (snapshot_order_sound pre _ _ _ _ Hord E Hl) as R.
  destruct (is_createCek l) eqn:Ec.
  - destruct R as [_ R]. split; [exact R|].
    rewrite E in Here. apply in_app_or in Here.
    destruct Here as [X|[X|X]].
    + elim (R _ X).
    + subst l. discriminate.
    + exact X.
  - destruct R as [R|[o R]]; [discriminate|].
    rewrite <- (Same o); [exact R|].
    rewrite E. apply in_or_app. left. exact R.
Qed.

Lemma C5_witness :
  In (LSnapshot (headers_at_call StdUtils mock sample_before))
     [LCreateCek 1; LSnapshot [("kid", "1")]; LGetKeyEncryptionAlgorithm;
      LGetContentEncryptionAlgorithm].
Proof.
  apply (C5_snapshot_after_createCek StdUtils mock sample_before [] "hi"
           [LCreateCek 1; LSnapshot [("kid", "1")]; LGetKeyEncryptionAlgorithm;
            LGetContentEncryptionAlgorithm]
           (tl (tl (tl (tl (tl (observed StdUtils mock sample_before "hi" []))))))
           (LCreateIV (createIV mock 0))).
  - vm_compute. reflexivity.
  - reflexivity.
Defined.

Lemma session_async_addHeader_free (U : Utils) (C : Cryptographer)
    (before after : list event) (plain_text : string) :
  async (snd (session U C before plain_text after)) =
  async (snd (session U C before plain_text (filter not_addHeader after))).
Proof.
  unfold session.
  destruct (encrypt U plain_text (run_events U before (boot C))) as [p W].
  cbn [snd]. rewrite !run_events_async. apply react_addHeader_free.
Qed.

(** C6: calling [addHeader] after [encrypt] has been invoked changes
    neither the result nor anything observed of the call in flight: the
    header segment and the AAD are those of the header map as it was when
    [encrypt] was invoked. *)
Theorem C6_snapshot_isolation (U : Utils) (C : Cryptographer)
    (before after : list event) (plain_text : string) :
  result U C before plain_text after =
    result U C before plain_text (filter not_addHeader after) /\
  observed U C before plain_text after =
    observed U C before plain_text (filter not_addHeader after) /\
  header_of_call U C before plain_text after =
    header_object C (headers_at_call U C before) /\
  (forall s,
     result U C before plain_text after = Fulfilled (VString s) ->
     exists rest,
       s = protected_header U C (headers_at_call U C before) +++ "." +++ rest) /\
  (forall iv0 aad cek_promise plain_bytes p,
     In (LEncrypt iv0 aad cek_promise plain_bytes p)
        (observed U C before plain_text after) ->
     aad = arrayFromString U (protected_header U C (headers_at_call U C before))).
Proof.
  split; [|split; [|split; [|split]]].
  - rewrite !result_eq, session_async_addHeader_free. reflexivity.
  - unfold observed. rewrite session_async_addHeader_free. reflexivity.
  - apply header_of_call_eq.
  - intros s H.
    destruct (result_fulfilled U C _ _ _ _ H) as [w [d [E _]]].
    inversion E; subst s. unfold compact. eexists. reflexivity.
  - intros iv0 aad cp pb p Hin.
    destruct (session_invariant U C before plain_text after)
      as [_ [_ [Hsync _]]].
    pose proof (in_filter_sync _ _ _ Hsync Hin eq_refl) as X.
    simpl in X.
    repeat (destruct X as [X|X]; [try discriminate; congruence|]).
    contradiction.
Qed.

(** C7: [wrapCek] is invoked only after both the recipient-key promise and
    the CEK promise have been fulfilled, in whichever order that happens,
    with their two values, and at most once; once both are fulfilled and
    the microtasks have run it has been invoked; and what its promise is
    fulfilled with becomes the second segment of the token. *)
Theorem C7_wrap_after_join (U : Utils) (C : Cryptographer)
    (before after : list event) (plain_text : string) :
  (forall s, dot_free (Base64Url_encode U s)) ->
  (forall b, dot_free (Base64Url_encodeArray U b)) ->
  (forall pre cek key p post,
     observed U C before plain_text after = pre ++ LWrapCek cek key p :: post ->
     In (LSettled OCaller (inl (VKey key))) pre /\
     In (LSettled OCreateCek (inl (VKey cek))) pre) /\
  length (filter is_wrap (observed U C before plain_text after)) <= 1 /\
  (forall key cek,
     In (LSettled OCaller (inl (VKey key))) (observed U C before plain_text after) ->
     In (LSettled OCreateCek (inl (VKey cek))) (observed U C before plain_text after) ->
     filter is_wrap (observed U C before plain_text (after ++ patience)) =
       [LWrapCek cek key 8]) /\
  (forall s,
     result U C before plain_text after = Fulfilled (VString s) ->
     exists wrapped,
       In (LSettled OWrapCek (inl (VBytes wrapped)))
          (observed U C before plain_text after) /\
       nth_error (split_dot s) 1 = Some (Base64Url_encodeArray U wrapped)).
Proof.
  intros Hs Hb.
  destruct (session_invariant U C before plain_text after)
    as [_ [_ [_ [Hjoin [Hwraps _]]]]].
  fold (observed U C before plain_text after) in Hjoin, Hwraps.
  split; [|split; [|split]].
  - intros pre cek key p post E.
    destruct (wrap_joined_sound pre _ _ _ _ _ _ _ Hjoin E) as [[X|X] [Y|Y]];
      try discriminate. auto.
  - unfold observed. destruct Hwraps as [E|E]; rewrite E; [cbn; lia|].
    unfold expected_wraps.
    repeat match goal with
           | |- context [match ?x with _ => _ end] => destruct x
           end; cbn; lia.
  - intros key cek Hk Hc.
    destruct (session_invariant U C before plain_text (after ++ patience))
      as [_ [_ [_ [_ [_ [Hcomplete [_ Hdistinct]]]]]]].
    pose proof (Hcomplete (session_quiet U C before plain_text after)) as W.
    fold (observed U C before plain_text (after ++ patience)) in W, Hdistinct.
    rewrite W. clear W Hcomplete.
    destruct (observed_grows U C before plain_text after patience) as [ext E].
    rewrite E in *. unfold expected_wraps.
    rewrite (settled_once _ _ _ Hdistinct (in_or_app _ _ _ (or_introl Hk))),
            (settled_once _ _ _ Hdistinct (in_or_app _ _ _ (or_introl Hc))).
    reflexivity.
  - intros s H.
    destruct (result_fulfilled U C _ _ _ _ H) as [w [d [E [Hw _]]]].
    inversion E; subst s. exists w. split; [exact Hw|].
    unfold compact. rewrite split_dot_five; auto. apply Hs.
Qed.

Lemma C7_witness :
  (forall pre cek key p post,
     observed StdUtils mock sample_before "hi" sample_after =
       pre ++ LWrapCek cek key p :: post ->
     In (LSettled OCaller (inl (VKey key))) pre /\
     In (LSettled OCreateCek (inl (VKey cek))) pre) /\
  length (filter is_wrap (observed StdUtils mock sample_before "hi" sample_after))
    <= 1 /\
  (forall key cek,
     In (LSettled OCaller (inl (VKey key)))
        (observed StdUtils mock sample_before "hi" sample_after) ->
     In (LSettled OCreateCek (inl (VKey cek)))
        (observed StdUtils mock sample_before "hi" sample_after) ->
     filter is_wrap
       (observed StdUtils mock sample_before "hi" (sample_after ++ patience)) =
       [LWrapCek cek key 8]) /\
  (forall s,
     result StdUtils mock sample_before "hi" sample_after = Fulfilled (VString s) ->
     exists wrapped,
       In (LSettled OWrapCek (inl (VBytes wrapped)))
          (observed StdUtils mock sample_before "hi" sample_after) /\
       nth_error (split_dot s) 1 = Some (Base64Url_encodeArray StdUtils wrapped)).
Proof.
  apply (C7_wrap_after_join StdUtils mock sample_before sample_after "hi").
  - apply Base64UrlFacts.StdUtils_encode_dot_free.
  - apply Base64UrlFacts.StdUtils_encodeArray_dot_free.
Defined.

Lemma headers_at_call_filter (U : Utils) (C : Cryptographer) before :
  headers_at_call U C (filter is_addHeader before) = headers_at_call U C before.
Proof.
  rewrite !headers_at_call_eq. apply add_headers_filter.
Qed.

(** C8: content encryption does not depend on the recipient key: whatever
    happens to the recipient-key promise, and whenever, the synchronous
    Cryptographer operations of the call, the IV, AAD and plaintext bytes
    passed to [encrypt] among them, are those of the session in which that
    promise stays pending; they are a function of the Cryptographer, the
    headers and the plaintext.  Only [wrapCek] is handed the key. *)
Theorem C8_content_encryption_ignores_key (U : Utils) (C : Cryptographer)
    (before after : list event) (plain_text : string) :
  filter is_sync (observed U C before plain_text after) =
    filter is_sync (observed U C (filter is_addHeader before) plain_text []) /\
  filter is_sync (observed U C before plain_text after) =
    [LCreateCek 1;
     LSnapshot (headers_at_call U C before);
     LGetKeyEncryptionAlgorithm;
     LGetContentEncryptionAlgorithm;
     LCreateIV (createIV C 0);
     LEncrypt (createIV C 0)
       (arrayFromString U (protected_header U C (headers_at_call U C before)))
       1 (arrayFromString U plain_text) 4].
Proof.
  destruct (session_invariant U C before plain_text after)
    as [_ [_ [Hsync _]]].
  destruct (session_invariant U C (filter is_addHeader before) plain_text [])
    as [_ [_ [Hsync' _]]].
  rewrite headers_at_call_filter in Hsync'.
  unfold observed. rewrite Hsync, Hsync'. split; reflexivity.
Qed.

(** C9, as the claim has it, fails for the key [alg]: the final header
    holds the Cryptographer's algorithm for it, not the value written
    last. *)
Lemma C9_counterexample :
  ~ last_write_in_final_header StdUtils mock [] "alg" "none" "RSA-OAEP"
      "hi" sample_after.
Proof.
  unfold last_write_in_final_header. vm_compute. discriminate.
Qed.

(** C9, amended: [addHeader(k, v)] inserts or overwrites [k] in the header
    map, the last write winning, for every key but [__proto__]; after
    [addHeader(k, v1)] and [addHeader(k, v2)], the header of a call of
    [encrypt] holds [v2] for [k], provided [k] is neither [alg] nor [enc],
    which the Cryptographer's values override; [addHeader] touches neither
    the promises nor the Cryptographer, and returns nothing. *)
Theorem C9_addHeader_last_write_wins (U : Utils) (C : Cryptographer)
    (before after : list event) (k v1 v2 : string) (plain_text : string) :
  k <> "__proto__" ->
  JSObject.get
    (headers_at_call U C (before ++ [CallAddHeader k v1; CallAddHeader k v2])) k
    = Some v2 /\
  (forall k', k' <> k ->
     JSObject.get
       (headers_at_call U C (before ++ [CallAddHeader k v1; CallAddHeader k v2])) k'
     = JSObject.get (headers_at_call U C before) k') /\
  (k <> "alg" -> k <> "enc" ->
     last_write_in_final_header U C before k v1 v2 plain_text after) /\
  (forall s,
     result U C (before ++ [CallAddHeader k v1; CallAddHeader k v2])
       plain_text after = Fulfilled (VString s) ->
     exists rest,
       s = Base64Url_encode U
             (JSON.stringify
                (header_of_call U C
                   (before ++ [CallAddHeader k v1; CallAddHeader k v2])
                   plain_text after)) +++ "." +++ rest) /\
  (forall W,
     async (exec (addHeader k v2) W) = async W /\
     this (exec (addHeader k v2) W) = this W /\
     fst (addHeader k v2 W) = tt).
Proof.
  intros Hp.
  assert (headers_at_call U C (before ++ [CallAddHeader k v1; CallAddHeader k v2])
          = JSObject.set (JSObject.set (headers_at_call U C before) k v1) k v2) as E.
  { rewrite !headers_at_call_eq, add_headers_app. reflexivity. }
  split; [|split; [|split; [|split]]].
  - rewrite E. apply JSObjectFacts.get_set_same. exact Hp.
  - intros k' N. rewrite E.
    rewrite !JSObjectFacts.get_set_other by congruence. reflexivity.
  - intros Ha He. unfold last_write_in_final_header.
    rewrite header_of_call_eq.
    apply JSObjectOrder.ordered_members;
      [apply JSObjectOrder.ordered_header_object|].
    rewrite get_header_object_other by assumption.
    rewrite E. apply JSObjectFacts.get_set_same. exact Hp.
  - intros s H.
    destruct (result_fulfilled U C _ _ _ _ H) as [w [d [Et _]]].
    inversion Et; subst s. rewrite header_of_call_eq.
    unfold compact. eexists. reflexivity.
  - intros W. repeat split.
Qed.

Lemma C9_witness :
  JSObject.get
    (headers_at_call StdUtils mock
       (sample_before ++ [CallAddHeader "cty" "text"; CallAddHeader "cty" "JWT"]))
    "cty" = Some "JWT" /\
  (forall k', k' <> "cty" ->
     JSObject.get
       (headers_at_call StdUtils mock
          (sample_before ++ [CallAddHeader "cty" "text"; CallAddHeader "cty" "JWT"])) k'
     = JSObject.get (headers_at_call StdUtils mock sample_before) k') /\
  ("cty" <> "alg" -> "cty" <> "enc" ->
     last_write_in_final_header StdUtils mock sample_before "cty" "text" "JWT"
       "hi" sample_after) /\
  (forall s,
     result StdUtils mock
       (sample_before ++ [CallAddHeader "cty" "text"; CallAddHeader "cty" "JWT"])
       "hi" sample_after = Fulfilled (VString s) ->
     exists rest,
       s = Base64Url_encode StdUtils
             (JSON.stringify
                (header_of_call StdUtils mock
                   (sample_before ++
                    [CallAddHeader "cty" "text"; CallAddHeader "cty" "JWT"])
                   "hi" sample_after)) +++ "." +++ rest) /\
  (forall W,
     async (exec (addHeader "cty" "JWT") W) = async W /\
     this (exec (addHeader "cty" "JWT") W) = this W /\
     fst (addHeader "cty" "JWT" W) = tt).
Proof.
  apply (C9_addHeader_last_write_wins StdUtils mock sample_before sample_after
           "cty" "text" "JWT" "hi").
  discriminate.
Defined.

(** C10: a call of [encrypt] leaves the Encrypter as it was: the
    [cryptographer] and [key_promise] references and the [userHeaders] map,
    keys and values, are the same before and after, then and at any later
    time; [alg] and [enc] are written into an object that the call adds to
    the heap. *)
Theorem C10_encrypt_preserves_encrypter (U : Utils) (C : Cryptographer)
    (before : list event) (plain_text : string) :
  let W := run_events U before (boot C) in
  let W' := snd (encrypt U plain_text W) in
  this W' = this W /\
  live_headers W' = live_headers W /\
  heap W' = heap W ++ [header_object C (live_headers W)] /\
  forall after,
    this (run_events U after W') = this (run_events U after W) /\
    live_headers (run_events U after W') = live_headers (run_events U after W).
Proof.
  intros W W'. subst W W'.
  destruct (before_eq U C before) as [r [Hr E]].
  rewrite E, (encrypt_eq _ _ _ _ _ Hr). cbn [snd].
  split; [reflexivity|]. split; [reflexivity|]. split; [reflexivity|].
  intros after. rewrite !run_events_this. split; [reflexivity|].
  unfold live_headers. rewrite !run_events_this.
  unfold world_before.
  rewrite run_events_heap1, run_events_heap2 by reflexivity.
  reflexivity.
Qed.

(* ===================================================================== *)
(** * Beyond the claims *)

(** ** Surveys are sound *)

Section SurveySound.

Variables St F : Type.
Variable next : St -> event -> St.
Variable live : St -> event -> bool.
Variables shown due : St -> F.

Hypothesis live_false : forall s ev, live s ev = false -> next s ev = s.
Hypothesis addHeader_still : forall s k v, live s (CallAddHeader k v) = false.

Lemma glance_sound n s ev :
  glance St F next live (survey St F next live shown due true n) s ev =
  glance St F next live (survey St F next live shown due false n) s ev ->
  next s ev = s \/
  survey St F next live shown due true n (next s ev) =
  survey St F next live shown due false n (next s ev).
Proof.
  unfold glance. intros H. destruct (live s ev) eqn:E.
  - right. exact (f_equal (move_sub F) H).
  - left. apply live_false. exact E.
Qed.

Lemma survey_step n s ev :
  survey St F next live shown due true (S n) s =
  survey St F next live shown due false (S n) s ->
  next s ev = s \/
  survey St F next live shown due true n (next s ev) =
  survey St F next live shown due false n (next s ev).
Proof.
  intros H. cbn [survey] in H.
  destruct ev as [k|e|k|e|b|e|c t|e| |k v]; try apply glance_sound.
  - exact (f_equal (fun v => on_key F k (lit_below F 0 v)) H).
  - exact (f_equal (fun v => on_error F e (lit_below F 1 v)) H).
  - exact (f_equal (fun v => on_key F k (lit_below F 2 v)) H).
  - exact (f_equal (fun v => on_error F e (lit_below F 3 v)) H).
  - exact (f_equal (fun v => on_bytes F b (lit_below F 4 v)) H).
  - exact (f_equal (fun v => on_error F e (lit_below F 5 v)) H).
  - exact (f_equal (fun v => on_bytes F t (on_bytes F c (lit_below F 6 v))) H).
  - exact (f_equal (fun v => on_error F e (lit_below F 7 v)) H).
  - exact (f_equal (lit_below F 8) H).
  - unfold glance. rewrite addHeader_still. reflexivity.
Qed.

(** When the two readings agree all over a survey that reaches no dark
    corner, they agree in every state that events lead to. *)
Lemma survey_sound l : forall n s,
  survey St F next live shown due true n s =
  survey St F next live shown due false n s ->
  shown (fold_left next l s) = due (fold_left next l s).
Proof.
  induction l as [|ev l IH]; intros n s H.
  - destruct n as [|n]; [discriminate H|].
    exact (f_equal (fun v => lit_fact F v (shown s)) H).
  - destruct n as [|n]; [discriminate H|]. cbn [fold_left].
    destruct (survey_step n s ev H) as [E|E].
    + rewrite E. exact (IH _ _ H).
    + exact (IH _ _ E).
Qed.

End SurveySound.

Section Coherence.

Variable U : Utils.
Variables (h : string) (iv0 aad ptb : bytes) (o : JSObject.obj).

Lemma ineffective_still A ev : effective A ev = false -> react U A ev = A.
Proof.
  intros H. apply ineffective_idle. exact H.
Qed.

Lemma coherent_pending :
  survey _ _ (react U) effective (coherence_shown U) coherence_due true 16
    (after_call h iv0 aad ptb o None) =
  survey _ _ (react U) effective (coherence_shown U) coherence_due false 16
    (after_call h iv0 aad ptb o None).
Proof.
  vm_compute. reflexivity.
Qed.

Lemma coherent_fulfilled k :
  survey _ _ (react U) effective (coherence_shown U) coherence_due true 16
    (after_call h iv0 aad ptb o (Some (inl (VKey k)))) =
  survey _ _ (react U) effective (coherence_shown U) coherence_due false 16
    (after_call h iv0 aad ptb o (Some (inl (VKey k)))).
Proof.
  vm_compute. reflexivity.
Qed.

Lemma coherent_rejected e :
  survey _ _ (react U) effective (coherence_shown U) coherence_due true 16
    (after_call h iv0 aad ptb o (Some (inr e))) =
  survey _ _ (react U) effective (coherence_shown U) coherence_due false 16
    (after_call h iv0 aad ptb o (Some (inr e))).
Proof.
  vm_compute. reflexivity.
Qed.

Lemma after_call_coherent r l :
  key_settlement r ->
  coherence_shown U (fold_left (react U) l (after_call h iv0 aad ptb o r)) =
  coherence_due (fold_left (react U) l (after_call h iv0 aad ptb o r)).
Proof.
  intros Hr.
  apply (survey_sound _ _ (react U) effective (coherence_shown U) coherence_due
           ineffective_still (fun _ _ _ => eq_refl) l 16).
  destruct r as [[[k| | | | | ]|e]|]; try contradiction.
  - apply coherent_fulfilled.
  - apply coherent_rejected.
  - apply coherent_pending.
Qed.

Variable ptb' : bytes.

Lemma both_still s ev :
  effective_either s ev = false -> react_both U s ev = s.
Proof.
  unfold effective_either, react_both. intros H.
  apply orb_false_elim in H. destruct H as [H1 H2], s as [A B].
  cbn [fst snd] in *.
  rewrite (ineffective_still _ _ H1), (ineffective_still _ _ H2).
  reflexivity.
Qed.

Lemma blind_pending :
  survey _ _ (react_both U) effective_either
    (fun s => blank (fst s)) (fun s => blank (snd s)) true 16
    (after_call h iv0 aad ptb o None, after_call h iv0 aad ptb' o None) =
  survey _ _ (react_both U) effective_either
    (fun s => blank (fst s)) (fun s => blank (snd s)) false 16
    (after_call h iv0 aad ptb o None, after_call h iv0 aad ptb' o None).
Proof.
  vm_compute. reflexivity.
Qed.

Lemma blind_fulfilled k :
  survey _ _ (react_both U) effective_either
    (fun s => blank (fst s)) (fun s => blank (snd s)) true 16
    (after_call h iv0 aad ptb o (Some (inl (VKey k))),
     after_call h iv0 aad ptb' o (Some (inl (VKey k)))) =
  survey _ _ (react_both U) effective_either
    (fun s => blank (fst s)) (fun s => blank (snd s)) false 16
    (after_call h iv0 aad ptb o (Some (inl (VKey k))),
     after_call h iv0 aad ptb' o (Some (inl (VKey k)))).
Proof.
  vm_compute. reflexivity.
Qed.

Lemma blind_rejected e :
  survey _ _ (react_both U) effective_either
    (fun s => blank (fst s)) (fun s => blank (snd s)) true 16
    (after_call h iv0 aad ptb o (Some (inr e)),
     after_call h iv0 aad ptb' o (Some (inr e))) =
  survey _ _ (react_both U) effective_either
    (fun s => blank (fst s)) (fun s => blank (snd s)) false 16
    (after_call h iv0 aad ptb o (Some (inr e)),
     after_call h iv0 aad ptb' o (Some (inr e))).
Proof.
  vm_compute. reflexivity.
Qed.

Lemma react_both_fold l : forall A B,
  fold_left (react_both U) l (A, B) =
  (fold_left (react U) l A, fold_left (react U) l B).
Proof.
  induction l as [|ev l IH]; intros A B; [reflexivity|].
  cbn [fold_left]. unfold react_both at 2. cbn [fst snd]. apply IH.
Qed.

(** The plaintext bytes show in the trace and nowhere else. *)
Lemma after_call_blind r l :
  key_settlement r ->
  blank (fold_left (react U) l (after_call h iv0 aad ptb o r)) =
  blank (fold_left (react U) l (after_call h iv0 aad ptb' o r)).
Proof.
  intros Hr.
  pose proof (survey_sound _ _ (react_both U) effective_either
                (fun s => blank (fst s)) (fun s => blank (snd s))
                both_still (fun _ _ _ => eq_refl) l 16
                (after_call h iv0 aad ptb o r, after_call h iv0 aad ptb' o r))
    as H.
  rewrite react_both_fold in H. apply H.
  destruct r as [[[k| | | | | ]|e]|]; try contradiction.
  - apply blind_fulfilled.
  - apply blind_rejected.
  - apply blind_pending.
Qed.

End Coherence.

(** ** More about traces *)

Lemma settled_origin_in tr o r :
  In (LSettled o r) tr -> In o (settled_origins tr).
Proof.
  induction tr as [|l tr IH]; [intros []|].
  intros [E|H].
  - subst l. left. reflexivity.
  - destruct l; cbn [settled_origins]; auto. right. auto.
Qed.

Lemma distinct_head o rest :
  distinct (o :: rest) = true -> ~ In o rest /\ distinct rest = true.
Proof.
  cbn [distinct]. intros D. apply andb_prop in D. destruct D as [D1 D2].
  split; [|exact D2]. intros Hin.
  assert (existsb (origin_eqb o) rest = true) as X.
  { apply existsb_exists. exists o. split; [exact Hin|destruct o; reflexivity]. }
  rewrite X in D1. discriminate D1.
Qed.

(** A promise is settled once. *)
Lemma settled_unique tr o r r' :
  distinct (settled_origins tr) = true ->
  In (LSettled o r) tr -> In (LSettled o r') tr -> r = r'.
Proof.
  induction tr as [|l tr IH]; [intros _ []|].
  intros D H H'.
  destruct l as [| | | | | | |o0 r0|];
    try (destruct H as [H|H]; [discriminate H|];
         destruct H' as [H'|H']; [discriminate H'|];
         exact (IH D H H')).
  cbn [settled_origins] in D. apply distinct_head in D. destruct D as [N D].
  destruct H as [H|H], H' as [H'|H'].
  - congruence.
  - injection H as -> ->. elim N. exact (settled_origin_in _ _ _ H').
  - injection H' as -> ->. elim N. exact (settled_origin_in _ _ _ H).
  - exact (IH D H H').
Qed.

Lemma settled_as_in tr o r :
  distinct (settled_origins tr) = true ->
  In (LSettled o r) tr -> settled_as o tr = settled r.
Proof.
  induction tr as [|l tr IH]; [intros _ []|].
  intros D H.
  destruct l as [| | | | | | |o0 r0|];
    try (destruct H as [H|H]; [discriminate H|]; exact (IH D H)).
  cbn [settled_origins] in D. apply distinct_head in D. destruct D as [N D].
  cbn [settled_as]. destruct H as [H|H].
  - injection H as -> ->. destruct o; reflexivity.
  - destruct (origin_eqb o0 o) eqn:E; [|exact (IH D H)].
    apply origin_eqb_eq in E. subst o0.
    elim N. exact (settled_origin_in _ _ _ H).
Qed.

Lemma failures_settled tr : failures (filter is_settled tr) = failures tr.
Proof.
  induction tr as [|l tr IH]; [reflexivity|].
  destruct l as [| | | | | | |o [v|e]|]; cbn [filter is_settled failures];
    rewrite ?IH; reflexivity.
Qed.

Lemma fulfilled_with_settled o tr :
  fulfilled_with o (filter is_settled tr) = fulfilled_with o tr.
Proof.
  induction tr as [|l tr IH]; [reflexivity|].
  destruct l as [| | | | | | |o' [v|e]|]; cbn [filter is_settled fulfilled_with];
    rewrite ?IH; reflexivity.
Qed.

Lemma first_failure_failures tr : first_failure tr = hd_error (failures tr).
Proof.
  induction tr as [|l tr IH]; [reflexivity|].
  destruct l as [| | | | | | |o [v|e]|]; cbn [first_failure failures];
    rewrite ?IH; reflexivity.
Qed.

Lemma filter_nil_none {A} (f : A -> bool) (l : list A) :
  (forall x, In x l -> f x = false) -> filter f l = [].
Proof.
  induction l as [|x l IH]; intros H; [reflexivity|].
  cbn [filter]. rewrite (H x (or_introl eq_refl)).
  apply IH. intros y Hy. apply H. right. exact Hy.
Qed.

(** [delivered_after_invoked], in terms of what precedes a delivery. *)
Lemma delivered_after_invoked_sound tr r :
  delivered_after_invoked false tr = true ->
  In (LSettled OWrapCek r) tr ->
  exists pre cek key p post,
    tr = pre ++ LWrapCek cek key p :: post /\
    In (LSettled OWrapCek r) post.
Proof.
  induction tr as [|l tr IH]; [intros _ []|].
  intros H Hin.
  assert (delivered_after_invoked false tr = true ->
          In (LSettled OWrapCek r) tr ->
          exists pre cek key p post,
            l :: tr = pre ++ LWrapCek cek key p :: post /\
            In (LSettled OWrapCek r) post) as Later.
  { intros H' Hin'.
    destruct (IH H' Hin') as [pre [cek [key [p [post [E Hp]]]]]].
    exists (l :: pre), cek, key, p, post. rewrite E. auto. }
  destruct l as [| | | | | |cek key p|o r0|]; cbn [delivered_after_invoked] in H;
    try (destruct Hin as [Hin|Hin]; [discriminate Hin|]; exact (Later H Hin)).
  - destruct Hin as [Hin|Hin]; [discriminate Hin|].
    exists [], cek, key, p, tr. auto.
  - destruct o; try discriminate H;
      (destruct Hin as [Hin|Hin]; [discriminate Hin|]; exact (Later H Hin)).
Qed.

(** ** More about sessions *)

Section MoreSessions.

Variables (U : Utils) (C : Cryptographer).

Lemma session_app before plain_text after more :
  async (snd (session U C before plain_text (after ++ more))) =
  fold_left (react U) more
    (async (snd (session U C before plain_text after))).
Proof.
  unfold session.
  destruct (encrypt U plain_text (run_events U before (boot C))) as [p W].
  cbn [snd]. rewrite !run_events_async. apply fold_left_app.
Qed.

Lemma session_coherent before plain_text after :
  coherence_shown U (async (snd (session U C before plain_text after))) =
  coherence_due (async (snd (session U C before plain_text after))).
Proof.
  destruct (session_eq U C before plain_text after) as [r [Hr E]].
  rewrite E. cbn [snd async]. apply after_call_coherent. exact Hr.
Qed.

Lemma session_blind before plain_text plain_text' after :
  blank (async (snd (session U C before plain_text after))) =
  blank (async (snd (session U C before plain_text' after))).
Proof.
  destruct (before_eq U C before) as [r [Hr E]].
  unfold session. rewrite E, !(encrypt_eq _ _ _ _ _ Hr).
  cbn [snd]. rewrite !run_events_async. cbn [async].
  apply after_call_blind. exact Hr.
Qed.

(** Microtasks settle none of the promises that others own. *)
Lemma microtasks_settle_nothing before plain_text after n :
  filter is_settled
    (observed U C before plain_text (after ++ repeat Microtask n)) =
  filter is_settled (observed U C before plain_text after).
Proof.
  induction n as [|n IH]; [rewrite app_nil_r; reflexivity|].
  cbn [repeat]. rewrite repeat_cons, app_assoc.
  unfold observed in *. rewrite session_app. cbn [fold_left react].
  pose proof (f_equal c_settled
                (session_coherent before plain_text
                   (after ++ repeat Microtask n))) as H.
  cbn [c_settled coherence_shown coherence_due] in H.
  rewrite H. exact IH.
Qed.

Lemma session_distinct before plain_text after :
  distinct (settled_origins (observed U C before plain_text after)) = true.
Proof.
  apply (session_invariant U C before plain_text after).
Qed.

End MoreSessions.

(** ** What the plaintext reaches *)

(** X1: the plaintext reaches the bytes handed to the Cryptographer's
    [encrypt] and nothing else: with another plaintext and the same
    events, the result, the Encrypter, the heap and every observation but
    that argument are the same. *)
Theorem X1_plaintext_reaches_only_encrypt (U : Utils) (C : Cryptographer)
    (before after : list event) (plain_text plain_text' : string) :
  result U C before plain_text after = result U C before plain_text' after /\
  map blank_plaintext (observed U C before plain_text after) =
    map blank_plaintext (observed U C before plain_text' after) /\
  filter is_encrypt (observed U C before plain_text after) =
    [LEncrypt (createIV C 0)
       (arrayFromString U (protected_header U C (headers_at_call U C before)))
       1 (arrayFromString U plain_text) 4] /\
  this (snd (session U C before plain_text after)) =
    this (snd (session U C before plain_text' after)) /\
  heap (snd (session U C before plain_text after)) =
    heap (snd (session U C before plain_text' after)).
Proof.
  pose proof (session_blind U C before plain_text plain_text' after) as B.
  split; [|split; [|split; [|split]]].
  - rewrite !result_eq. unfold promise_state.
    change (store (async (snd (session U C before plain_text after))))
      with (store (blank (async (snd (session U C before plain_text after))))).
    rewrite B. reflexivity.
  - exact (f_equal trace B).
  - destruct (session_invariant U C before plain_text after)
      as [_ [_ [Hsync _]]].
    unfold observed.
    rewrite <- (filter_implied is_encrypt is_sync)
      by (intros [ ]; cbv; congruence).
    rewrite Hsync. reflexivity.
  - rewrite !session_this. reflexivity.
  - rewrite !session_heap. reflexivity.
Qed.

(** ** The way to a token *)

(** X2: once the wrapped CEK and the ciphertext have been delivered, the
    microtasks that are queued bring the token: the result is fulfilled
    with the header, the wrapped CEK, the IV of the call, the ciphertext
    and the tag that were delivered, whatever the order of the events
    before. *)
Theorem X2_deliveries_bring_the_token (U : Utils) (C : Cryptographer)
    (before after : list event) (plain_text : string)
    (wrapped : bytes) (d : EncryptData) :
  In (LSettled OWrapCek (inl (VBytes wrapped)))
     (observed U C before plain_text after) ->
  In (LSettled OEncrypt (inl (VObject d)))
     (observed U C before plain_text after) ->
  result U C before plain_text (after ++ patience) =
    Fulfilled (VString
      (compact U (protected_header U C (headers_at_call U C before))
         wrapped (createIV C 0) (cipher d) (tag d))).
Proof.
  intros Hw Hd.
  pose proof (session_distinct U C before plain_text after) as D.
  pose proof (settled_once _ _ _ D Hw) as Fw.
  pose proof (settled_once _ _ _ D Hd) as Fd.
  pose proof (f_equal c_failures (session_coherent U C before plain_text after))
    as Hf.
  cbn [c_failures coherence_shown coherence_due] in Hf.
  fold (observed U C before plain_text after) in Hf.
  unfold delivered in Hf. rewrite Fw, Fd in Hf.
  pose proof (microtasks_settle_nothing U C before plain_text after 32) as S.
  fold (patience) in S.
  destruct (session_invariant U C before plain_text (after ++ patience))
    as [_ [Hcomplete _]].
  pose proof (Hcomplete (session_quiet U C before plain_text after)) as R.
  fold (observed U C before plain_text (after ++ patience)) in R.
  rewrite <- result_eq in R.
  assert (first_failure (observed U C before plain_text (after ++ patience))
          = None) as N.
  { rewrite first_failure_failures, <- failures_settled, S, failures_settled, Hf.
    reflexivity. }
  rewrite N in R. rewrite R. unfold verdict. rewrite N.
  rewrite <- (fulfilled_with_settled OWrapCek),
          <- (fulfilled_with_settled OEncrypt), S,
          !fulfilled_with_settled, Fw, Fd.
  reflexivity.
Qed.

Lemma X2_witness :
  result StdUtils mock sample_before "hi" (sample_after ++ patience) =
    Fulfilled (VString
      (compact StdUtils
         (protected_header StdUtils mock (headers_at_call StdUtils mock sample_before))
         [] (createIV mock 0)
         (cipher {| cipher := list_byte_of_string "ciphertext";
                    tag := list_byte_of_string "tag";
                    header := None; iv := None |})
         (tag {| cipher := list_byte_of_string "ciphertext";
                 tag := list_byte_of_string "tag";
                 header := None; iv := None |}))).
Proof.
  apply (X2_deliveries_bring_the_token StdUtils mock sample_before sample_after
           "hi").
  - vm_compute. auto 20.
  - vm_compute. auto 20.
Defined.

(** ** One CEK *)

(** X3: the key that is wrapped is the key of the content encryption:
    when [wrapCek(cek, key)] is invoked, [cek] is what the promise that
    [createCek] returned is fulfilled with, that very promise is the one
    handed to the Cryptographer's [encrypt], and [key] is what the
    Encrypter's [key_promise] is fulfilled with. *)
Theorem X3_wrapped_key_is_content_key (U : Utils) (C : Cryptographer)
    (before after : list event) (plain_text : string)
    (cek key : CryptoKey) (p : pid) :
  In (LWrapCek cek key p) (observed U C before plain_text after) ->
  exists cek_promise,
    In (LCreateCek cek_promise) (observed U C before plain_text after) /\
    (forall iv0 aad cp ptb q,
       In (LEncrypt iv0 aad cp ptb q) (observed U C before plain_text after) ->
       cp = cek_promise) /\
    promise_state (async (snd (session U C before plain_text after))) cek_promise
      = Fulfilled (VKey cek) /\
    promise_state (async (snd (session U C before plain_text after)))
      (key_promise (this (snd (session U C before plain_text after))))
      = Fulfilled (VKey key).
Proof.
  intros Hin. exists 1.
  destruct (session_invariant U C before plain_text after)
    as [_ [_ [Hsync [Hjoin _]]]].
  fold (observed U C before plain_text after) in Hsync, Hjoin.
  pose proof (session_distinct U C before plain_text after) as D.
  destruct (in_split _ _ Hin) as [pre [post E]].
  destruct (wrap_joined_sound pre _ _ _ _ _ _ _ Hjoin E) as [[X|Hk] [Y|Hc]];
    try discriminate.
  assert (In (LSettled OCaller (inl (VKey key)))
             (observed U C before plain_text after)) as Hk'
    by (rewrite E; apply in_or_app; left; exact Hk).
  assert (In (LSettled OCreateCek (inl (VKey cek)))
             (observed U C before plain_text after)) as Hc'
    by (rewrite E; apply in_or_app; left; exact Hc).
  pose proof (session_coherent U C before plain_text after) as Co.
  split; [|split; [|split]].
  - assert (In (LCreateCek 1)
              (filter is_sync (observed U C before plain_text after))) as X
      by (rewrite Hsync; left; reflexivity).
    apply filter_In in X. apply X.
  - intros iv0 aad cp ptb q He.
    pose proof (in_filter_sync _ _ _ Hsync He eq_refl) as X.
    cbn [sync_calls In] in X.
    repeat (destruct X as [X|X]; [try discriminate X; congruence|]).
    contradiction.
  - pose proof (f_equal c_cek Co) as H.
    cbn [c_cek coherence_shown coherence_due] in H. rewrite H.
    exact (settled_as_in _ _ _ D Hc').
  - rewrite session_this. cbn [the_encrypter key_promise].
    pose proof (f_equal c_key Co) as H.
    cbn [c_key coherence_shown coherence_due] in H. rewrite H.
    exact (settled_as_in _ _ _ D Hk').
Qed.

Lemma X3_witness :
  exists cek_promise,
    In (LCreateCek cek_promise)
       (observed StdUtils mock sample_before "hi" sample_after) /\
    (forall iv0 aad cp ptb q,
       In (LEncrypt iv0 aad cp ptb q)
          (observed StdUtils mock sample_before "hi" sample_after) ->
       cp = cek_promise) /\
    promise_state (async (snd (session StdUtils mock sample_before "hi" sample_after)))
      cek_promise = Fulfilled (VKey 5) /\
    promise_state (async (snd (session StdUtils mock sample_before "hi" sample_after)))
      (key_promise (this (snd (session StdUtils mock sample_before "hi" sample_after))))
      = Fulfilled (VKey 7).
Proof.
  apply (X3_wrapped_key_is_content_key StdUtils mock sample_before sample_after
           "hi" 5 7 8).
  vm_compute. auto 20.
Defined.

(** X4: after the recipient-key promise or the CEK promise has been
    rejected, [wrapCek] is never invoked. *)
Theorem X4_no_wrap_after_rejection (U : Utils) (C : Cryptographer)
    (before after : list event) (plain_text : string)
    (org : origin) (e : error) :
  org = OCaller \/ org = OCreateCek ->
  In (LSettled org (inr e)) (observed U C before plain_text after) ->
  forall more,
    filter is_wrap (observed U C before plain_text (after ++ more)) = [].
Proof.
  intros Horg Hin more.
  destruct (observed_grows U C before plain_text after more) as [ext G].
  assert (In (LSettled org (inr e))
             (observed U C before plain_text (after ++ more))) as Hin'
    by (rewrite G; apply in_or_app; left; exact Hin).
  destruct (session_invariant U C before plain_text (after ++ more))
    as [_ [_ [_ [Hjoin _]]]].
  fold (observed U C before plain_text (after ++ more)) in Hjoin.
  pose proof (session_distinct U C before plain_text (after ++ more)) as D.
  apply filter_nil_none. intros l Hl.
  destruct l as [| | | | | |cek key p| |]; try reflexivity.
  exfalso.
  destruct (in_split _ _ Hl) as [pre [post E]].
  destruct (wrap_joined_sound pre _ _ _ _ _ _ _ Hjoin E) as [[X|Hk] [Y|Hc]];
    try discriminate.
  destruct Horg; subst org.
  - assert (In (LSettled OCaller (inl (VKey key)))
               (observed U C before plain_text (after ++ more))) as Hk'
      by (rewrite E; apply in_or_app; left; exact Hk).
    pose proof (settled_unique _ _ _ _ D Hin' Hk') as Q. discriminate Q.
  - assert (In (LSettled OCreateCek (inl (VKey cek)))
               (observed U C before plain_text (after ++ more))) as Hc'
      by (rewrite E; apply in_or_app; left; exact Hc).
    pose proof (settled_unique _ _ _ _ D Hin' Hc') as Q. discriminate Q.
Qed.

Lemma X4_witness :
  filter is_wrap
    (observed StdUtils mock sample_before "hi"
       ([KeyRejected "no key"] ++ [CekResolved 5; Microtask; Microtask])) = [].
Proof.
  apply (X4_no_wrap_after_rejection StdUtils mock sample_before
           [KeyRejected "no key"] "hi" OCaller "no key").
  - left. reflexivity.
  - vm_compute. auto 10.
Defined.

(** X5: a result that has settled, token or rejection, is final: no
    later event changes it. *)
Theorem X5_settled_result_is_final (U : Utils) (C : Cryptographer)
    (before after : list event) (plain_text : string) :
  result U C before plain_text after <> Pending ->
  forall more,
    result U C before plain_text (after ++ more) =
    result U C before plain_text after.
Proof.
  intros H more. rewrite !result_eq in *.
  destruct (session_advances U C before plain_text after more) as [_ [S|S]];
    [contradiction|exact S].
Qed.

Lemma X5_witness :
  result StdUtils mock sample_before EmptyString sample_after <> Pending /\
  result StdUtils mock sample_before EmptyString
    (sample_after ++ [KeyRejected "late"; Microtask]) =
  result StdUtils mock sample_before EmptyString sample_after.
Proof.
  split; [vm_compute; discriminate|].
  apply (X5_settled_result_is_final StdUtils mock sample_before sample_after
           EmptyString).
  vm_compute. discriminate.
Defined.

(** ** No token without every step *)

(** X11: a token tells that every step was taken: the recipient key and
    the CEK were fulfilled, then [wrapCek] was invoked with these two
    values, then its promise was fulfilled, the content encryption was
    fulfilled too, and the token holds what these two were fulfilled
    with. *)
Theorem X11_token_needs_every_step (U : Utils) (C : Cryptographer)
    (before after : list event) (plain_text : string) (token : value) :
  result U C before plain_text after = Fulfilled token ->
  exists key cek p pre post wrapped d,
    observed U C before plain_text after = pre ++ LWrapCek cek key p :: post /\
    In (LSettled OCaller (inl (VKey key))) pre /\
    In (LSettled OCreateCek (inl (VKey cek))) pre /\
    In (LSettled OWrapCek (inl (VBytes wrapped))) post /\
    In (LSettled OEncrypt (inl (VObject d)))
       (observed U C before plain_text after) /\
    token = VString
      (compact U (protected_header U C (headers_at_call U C before))
         wrapped (createIV C 0) (cipher d) (tag d)).
Proof.
  intros R.
  destruct (result_fulfilled U C _ _ _ _ R) as [w [d [Et [Hw Hd]]]].
  pose proof (f_equal c_invoked (session_coherent U C before plain_text after))
    as Hi.
  cbn [c_invoked coherence_shown coherence_due] in Hi.
  fold (observed U C before plain_text after) in Hi.
  destruct (delivered_after_invoked_sound _ _ Hi Hw)
    as [pre [cek [key [p [post [E Hp]]]]]].
  destruct (session_invariant U C before plain_text after)
    as [_ [_ [_ [Hjoin _]]]].
  fold (observed U C before plain_text after) in Hjoin.
  destruct (wrap_joined_sound pre _ _ _ _ _ _ _ Hjoin E) as [[X|Hk] [Y|Hc]];
    try discriminate.
  exists key, cek, p, pre, post, w, d.
  repeat split; assumption.
Qed.

Lemma X11_witness :
  exists key cek p pre post wrapped d,
    observed StdUtils mock sample_before EmptyString sample_after =
      pre ++ LWrapCek cek key p :: post /\
    In (LSettled OCaller (inl (VKey key))) pre /\
    In (LSettled OCreateCek (inl (VKey cek))) pre /\
    In (LSettled OWrapCek (inl (VBytes wrapped))) post /\
    In (LSettled OEncrypt (inl (VObject d)))
       (observed StdUtils mock sample_before EmptyString sample_after) /\
    VString sample_token = VString
      (compact StdUtils
         (protected_header StdUtils mock (headers_at_call StdUtils mock sample_before))
         wrapped (createIV mock 0) (cipher d) (tag d)).
Proof.
  apply (X11_token_needs_every_step StdUtils mock sample_before sample_after
           EmptyString).
  vm_compute. reflexivity.
Defined.

(** ** The header of a call *)

Lemma keys_set_named_app k v o :
  JSObject.keys (JSObject.set_named k v o) =
  JSObject.keys o ++
  match JSObject.get o k with Some _ => [] | None => [k] end.
Proof.
  unfold JSObject.keys.
  induction o as [|[k0 v0] o IH]; [reflexivity|].
  cbn [JSObject.set_named JSObject.get].
  destruct (String.eqb_spec k0 k) as [E|N]; cbn [map fst app].
  - subst k0. rewrite app_nil_r. reflexivity.
  - rewrite IH. reflexivity.
Qed.

Lemma get_none_not_member o k :
  JSObject.get o k = None -> forall v, ~ In (k, v) o.
Proof.
  induction o as [|[k0 v0] o IH]; intros H v; [intros []|].
  cbn [JSObject.get] in H. destruct (String.eqb_spec k0 k) as [E|N];
    [discriminate H|].
  intros [X|X]; [congruence|exact (IH H v X)].
Qed.

Lemma add_headers_none l :
  filter is_addHeader l = [] -> add_headers l JSObject.empty = JSObject.empty.
Proof.
  intros H. rewrite <- add_headers_filter, H. reflexivity.
Qed.

(** X6: where [alg] and [enc] stand in the header of a call: the keys of
    the header are the keys of [userHeaders] in their order, followed by
    [alg] and then [enc] unless the caller had added them, in which case
    they stay where the caller put them. *)
Theorem X6_header_keys (U : Utils) (C : Cryptographer)
    (before after : list event) (plain_text : string) :
  JSObject.keys (header_of_call U C before plain_text after) =
  JSObject.keys (headers_at_call U C before) ++
  match JSObject.get (headers_at_call U C before) "alg" with
  | Some _ => []
  | None => ["alg"]
  end ++
  match JSObject.get (headers_at_call U C before) "enc" with
  | Some _ => []
  | None => ["enc"]
  end.
Proof.
  rewrite header_of_call_eq, headers_at_call_eq.
  rewrite JSObjectCopy.header_object_eq.
  set (o := add_headers before JSObject.empty).
  change (JSObject.set
            (JSObject.set o "alg" (getKeyEncryptionAlgorithm C))
            "enc" (getContentEncryptionAlgorithm C))
    with (JSObject.set_named "enc" (getContentEncryptionAlgorithm C)
            (JSObject.set_named "alg" (getKeyEncryptionAlgorithm C) o)).
  rewrite !keys_set_named_app, <- app_assoc.
  change (JSObject.set_named "alg" (getKeyEncryptionAlgorithm C) o)
    with (JSObject.set o "alg" (getKeyEncryptionAlgorithm C)).
  rewrite JSObjectFacts.get_set_other by discriminate.
  reflexivity.
Qed.

(** X7: an Encrypter starts without headers: when [addHeader] has not
    been called, the header of a call holds [alg] and [enc] and nothing
    else, and a token begins with the encoding of exactly that object. *)
Theorem X7_no_headers_at_start (U : Utils) (C : Cryptographer)
    (before after : list event) (plain_text : string) :
  filter is_addHeader before = [] ->
  headers_at_call U C before = JSObject.empty /\
  header_of_call U C before plain_text after =
    [("alg", getKeyEncryptionAlgorithm C);
     ("enc", getContentEncryptionAlgorithm C)] /\
  forall s,
    result U C before plain_text after = Fulfilled (VString s) ->
    exists rest,
      s = Base64Url_encode U
            (JSON.stringify [("alg", getKeyEncryptionAlgorithm C);
                             ("enc", getContentEncryptionAlgorithm C)])
          +++ "." +++ rest.
Proof.
  intros H.
  assert (headers_at_call U C before = JSObject.empty) as E
    by (rewrite headers_at_call_eq; apply add_headers_none; exact H).
  split; [exact E|].
  assert (header_object C (headers_at_call U C before) =
          [("alg", getKeyEncryptionAlgorithm C);
           ("enc", getContentEncryptionAlgorithm C)]) as Eh
    by (rewrite E; reflexivity).
  split; [rewrite header_of_call_eq; exact Eh|].
  intros s R.
  destruct (result_fulfilled U C _ _ _ _ R) as [w [d [Et _]]].
  inversion Et; subst s. unfold compact, protected_header. rewrite Eh.
  eexists. reflexivity.
Qed.

Lemma X7_witness :
  headers_at_call StdUtils mock [KeyResolved 7] = JSObject.empty /\
  header_of_call StdUtils mock [KeyResolved 7] "hi" sample_after =
    [("alg", getKeyEncryptionAlgorithm mock);
     ("enc", getContentEncryptionAlgorithm mock)] /\
  forall s,
    result StdUtils mock [KeyResolved 7] "hi" sample_after =
      Fulfilled (VString s) ->
    exists rest,
      s = Base64Url_encode StdUtils
            (JSON.stringify [("alg", getKeyEncryptionAlgorithm mock);
                             ("enc", getContentEncryptionAlgorithm mock)])
          +++ "." +++ rest.
Proof.
  apply (X7_no_headers_at_start StdUtils mock [KeyResolved 7] sample_after "hi").
  reflexivity.
Defined.

(** X8: the header of a call never has a member [__proto__]: an
    [addHeader("__proto__", v)] leaves the header map as it was, and the
    copy loop creates no such member either. *)
Theorem X8_no_proto_member (U : Utils) (C : Cryptographer)
    (before after : list event) (plain_text : string) (v : string) :
  headers_at_call U C (before ++ [CallAddHeader "__proto__" v]) =
    headers_at_call U C before /\
  header_of_call U C (before ++ [CallAddHeader "__proto__" v]) plain_text after =
    header_of_call U C before plain_text after /\
  forall x, ~ In ("__proto__", x) (header_of_call U C before plain_text after).
Proof.
  assert (headers_at_call U C (before ++ [CallAddHeader "__proto__" v]) =
          headers_at_call U C before) as E
    by (rewrite !headers_at_call_eq, add_headers_app; reflexivity).
  split; [exact E|].
  split; [rewrite !header_of_call_eq, E; reflexivity|].
  rewrite header_of_call_eq.
  apply get_none_not_member, get_header_object_proto.
Qed.

(** ** A call from any state *)

Lemma update_app_new {A} (s l : list A) n i f :
  length s = n -> update (n + i) f (s ++ l) = s ++ update i f l.
Proof.
  intros <-. induction s as [|x s IH]; [reflexivity|].
  cbn [length plus app update]. rewrite IH. reflexivity.
Qed.

Lemma nth_error_app_new {A} (s l : list A) n i :
  length s = n -> nth_error (s ++ l) (n + i) = nth_error l i.
Proof.
  intros <-. induction s as [|x s IH]; [reflexivity|]. exact IH.
Qed.

Lemma update_app_old {A} (s l : list A) i f :
  i < length s -> update i f (s ++ l) = update i f s ++ l.
Proof.
  revert i. induction s as [|x s IH]; intros i H; [inversion H|].
  destruct i as [|i]; [reflexivity|].
  cbn [app update]. rewrite IH; [reflexivity|]. cbn [length] in H. lia.
Qed.

Lemma length_update {A} (s : list A) i f : length (update i f s) = length s.
Proof.
  revert i. induction s as [|x s IH]; intros i; [destruct i; reflexivity|].
  destruct i; cbn [update length]; [reflexivity|]. rewrite IH. reflexivity.
Qed.

Lemma nth_error_app_len {A} (s l : list A) n :
  length s = n -> nth_error (s ++ l) n = nth_error l 0.
Proof.
  intros H. rewrite <- (Nat.add_0_r n). apply nth_error_app_new. exact H.
Qed.

Lemma update_app_len {A} (s l : list A) n f :
  length s = n -> update n f (s ++ l) = s ++ update 0 f l.
Proof.
  intros H. rewrite <- (Nat.add_0_r n) at 1. apply update_app_new. exact H.
Qed.

Lemma nth_app_len {A} (s l : list A) d : nth (length s) (s ++ l) d = nth 0 l d.
Proof.
  rewrite app_nth2 by lia. rewrite Nat.sub_diag. reflexivity.
Qed.

Lemma state_update (f : promise -> promise) i s q :
  (forall c, state (f c) = state c) ->
  match nth_error (update i f s) q with Some c => state c | None => Pending end =
  match nth_error s q with Some c => state c | None => Pending end.
Proof.
  intros Hf. revert i q.
  induction s as [|c s IH]; intros i q; [destruct i; reflexivity|].
  destruct i as [|i], q as [|q]; cbn [update nth_error]; auto.
Qed.

(** X9: what a call of [encrypt] does before it returns, from any state
    of the world in which the Encrypter's key promise and header map
    exist (so also while earlier calls are in flight): it invokes
    [createCek], copies the header map as it is now, asks for the two
    algorithm names and for one IV, and invokes the Cryptographer's
    [encrypt] with that IV, the bytes of the header and of the plaintext
    and the new CEK promise, in this order and nothing else; the promise
    it returns is new and pending; no promise that existed changes its
    state; no microtask is run or dropped: the microtasks that were queued
    are still queued, in their order, ahead of any that the call adds; the
    Encrypter is as before and the heap has one more object, the header of
    the call. *)
Theorem X9_encrypt_from_any_state (U : Utils) (W : World) (plain_text : string) :
  key_promise (this W) < length (store (async W)) ->
  userHeaders (this W) < length (heap W) ->
  let c := cryptographer (this W) in
  let n := length (store (async W)) in
  let iv0 := createIV c (ivs_drawn (async W)) in
  let h := protected_header U c (live_headers W) in
  let p := fst (encrypt U plain_text W) in
  let W' := snd (encrypt U plain_text W) in
  p = n + 6 /\
  promise_state (async W') p = Pending /\
  trace (async W') =
    trace (async W) ++
    [LCreateCek n; LSnapshot (live_headers W); LGetKeyEncryptionAlgorithm;
     LGetContentEncryptionAlgorithm; LCreateIV iv0;
     LEncrypt iv0 (arrayFromString U h) n (arrayFromString U plain_text) (n + 3)] /\
  ivs_drawn (async W') = S (ivs_drawn (async W)) /\
  (forall q, q < n ->
     promise_state (async W') q = promise_state (async W) q) /\
  (exists added, queue (async W') = queue (async W) ++ added) /\
  this W' = this W /\
  heap W' = heap W ++ [header_object c (live_headers W)].
Proof.
  destruct W as [[c kp uh] Hp [s q t n]].
  cbn [this heap async store queue trace ivs_drawn cryptographer key_promise
       userHeaders].
  intros Hk Hu.
  destruct (nth_error s kp) as [[st rs es src]|] eqn:Hc;
    [|apply nth_error_None in Hc; lia].
  unfold live_headers.
  cbn [this heap async store queue trace ivs_drawn cryptographer key_promise
       userHeaders].
  destruct st as [|v|e];
    repeat (progress
      (lazy beta iota zeta delta
         [encrypt encryptPlainText bind self lift createCek Promise_all
          promise_then new_promise log ret subscribe_elements subscribe lookup
          with_store enqueue alloc read write cryptographer_createIV
          cryptographer_encrypt
          this heap async store queue trace ivs_drawn cryptographer key_promise
          userHeaders fst snd state reactions elements source];
       repeat rewrite <- app_assoc;
       cbn [app length repeat nth_error update nth];
       repeat rewrite length_app; cbn [length];
       repeat rewrite length_update;
       repeat rewrite <- Nat.add_assoc; cbn [Nat.add];
       rewrite ?(nth_error_app1 _ _ Hk), ?Hc;
       rewrite ?update_app_old by exact Hk;
       rewrite ?nth_error_app_len by (repeat rewrite length_update; reflexivity);
       rewrite ?nth_error_app_new by (repeat rewrite length_update; reflexivity);
       rewrite ?update_app_len by (repeat rewrite length_update; reflexivity);
       rewrite ?update_app_new by (repeat rewrite length_update; reflexivity);
       rewrite ?nth_app_len;
       rewrite ?(app_nth1 _ _ _ Hu)));
    (split; [reflexivity|]);
    (split; [unfold promise_state; cbn [store];
             rewrite nth_error_app_new
               by (repeat rewrite length_update; reflexivity);
             reflexivity|]);
    (split; [reflexivity|]);
    (split; [reflexivity|]);
    (split; [|split; [|split; reflexivity];
              first [exists []; rewrite app_nil_r; reflexivity
                    |eexists; reflexivity]]);
    intros x Hx; unfold promise_state; cbn [store];
    rewrite (nth_error_app1 _ _ Hx) ||
    (rewrite nth_error_app1 by (rewrite length_update; exact Hx));
    try reflexivity.
  apply state_update. intros [? ? ? ?]. reflexivity.
Qed.

Lemma X9_witness :
  let c := cryptographer (this world_in_flight) in
  let n := length (store (async world_in_flight)) in
  let iv0 := createIV c (ivs_drawn (async world_in_flight)) in
  let h := protected_header StdUtils c (live_headers world_in_flight) in
  let p := fst (encrypt StdUtils "again" world_in_flight) in
  let W' := snd (encrypt StdUtils "again" world_in_flight) in
  p = n + 6 /\
  promise_state (async W') p = Pending /\
  trace (async W') =
    trace (async world_in_flight) ++
    [LCreateCek n; LSnapshot (live_headers world_in_flight);
     LGetKeyEncryptionAlgorithm; LGetContentEncryptionAlgorithm; LCreateIV iv0;
     LEncrypt iv0 (arrayFromString StdUtils h) n
       (arrayFromString StdUtils "again") (n + 3)] /\
  ivs_drawn (async W') = S (ivs_drawn (async world_in_flight)) /\
  (forall q, q < n ->
     promise_state (async W') q = promise_state (async world_in_flight) q) /\
  (exists added,
     queue (async W') = queue (async world_in_flight) ++ added) /\
  this W' = this world_in_flight /\
  heap W' =
    heap world_in_flight ++ [header_object c (live_headers world_in_flight)].
Proof.
  apply (X9_encrypt_from_any_state StdUtils world_in_flight "again").
  - vm_compute. lia.
  - vm_compute. lia.
Defined.

(** ** One header map for each Encrypter *)

Lemma update_ext {A} (f g : A -> A) i l :
  (forall x, f x = g x) -> update i f l = update i g l.
Proof.
  intros H. revert i. induction l as [|x l IH]; intros i; [destruct i; reflexivity|].
  destruct i; cbn [update]; [rewrite H|rewrite IH]; reflexivity.
Qed.

Lemma update_update {A} (f g : A -> A) i l :
  update i g (update i f l) = update i (fun x => g (f x)) l.
Proof.
  revert i. induction l as [|x l IH]; intros i; [destruct i; reflexivity|].
  destruct i; cbn [update]; [|rewrite IH]; reflexivity.
Qed.

Lemma update_same {A} i (l : list A) : update i (fun x => x) l = l.
Proof.
  revert i. induction l as [|x l IH]; intros i; [destruct i; reflexivity|].
  destruct i; cbn [update]; [|rewrite IH]; reflexivity.
Qed.

Lemma nth_update_same {A} (f : A -> A) i l d :
  i < length l -> nth i (update i f l) d = f (nth i l d).
Proof.
  revert i. induction l as [|x l IH]; intros i H; [inversion H|].
  destruct i; cbn [update nth]; [reflexivity|].
  apply IH. cbn [length] in H. lia.
Qed.

Lemma nth_update_other {A} (f : A -> A) i j l d :
  i <> j -> nth j (update i f l) d = nth j l d.
Proof.
  revert i j. induction l as [|x l IH]; intros i j H; [destruct i; reflexivity|].
  destruct i, j; cbn [update nth]; try reflexivity; [congruence|].
  apply IH. congruence.
Qed.

(** The heap after any events: only the Encrypter's header map has
    changed, by the [addHeader] calls among them. *)
Lemma run_events_heap (U : Utils) l : forall W,
  heap (run_events U l W) =
  update (userHeaders (this W)) (add_headers l) (heap W).
Proof.
  unfold run_events.
  induction l as [|ev l IH]; intros W; cbn [fold_left].
  - symmetry. apply update_same.
  - rewrite IH, step_this, step_heap.
    destruct ev; try reflexivity.
    rewrite update_update. apply update_ext. intros x. reflexivity.
Qed.

(** X10: every Encrypter has a header map of its own: of two Encrypters
    constructed one after the other, whatever is done with one (headers
    added, in any number, among any other events) leaves the header map
    of the other empty. *)
Theorem X10_encrypters_do_not_share_headers (U : Utils)
    (c1 c2 : Cryptographer) (kp1 kp2 : pid) (H : list JSObject.obj)
    (A : Async) (l : list event) :
  let e1 := fst (JoseJWE_Encrypter c1 kp1 H) in
  let H1 := snd (JoseJWE_Encrypter c1 kp1 H) in
  let e2 := fst (JoseJWE_Encrypter c2 kp2 H1) in
  let H2 := snd (JoseJWE_Encrypter c2 kp2 H1) in
  let W1 := run_events U l {| this := e1; heap := H2; async := A |} in
  let W2 := run_events U l {| this := e2; heap := H2; async := A |} in
  userHeaders e1 <> userHeaders e2 /\
  nth (userHeaders e1) H2 JSObject.empty = JSObject.empty /\
  nth (userHeaders e2) H2 JSObject.empty = JSObject.empty /\
  live_headers W1 = add_headers l JSObject.empty /\
  nth (userHeaders e2) (heap W1) JSObject.empty = JSObject.empty /\
  live_headers W2 = add_headers l JSObject.empty /\
  nth (userHeaders e1) (heap W2) JSObject.empty = JSObject.empty.
Proof.
  cbn [JoseJWE_Encrypter fst snd userHeaders].
  assert (length (H ++ [JSObject.empty]) <> length H) as N
    by (rewrite length_app; cbn [length]; lia).
  assert (nth (length H) ((H ++ [JSObject.empty]) ++ [JSObject.empty])
            JSObject.empty = JSObject.empty) as E1.
  { rewrite <- app_assoc. rewrite nth_app_len. reflexivity. }
  assert (nth (length (H ++ [JSObject.empty]))
            ((H ++ [JSObject.empty]) ++ [JSObject.empty])
            JSObject.empty = JSObject.empty) as E2.
  { rewrite nth_app_len. reflexivity. }
  unfold live_headers. rewrite !run_events_this, !run_events_heap.
  cbn [this heap userHeaders].
  split; [congruence|]. split; [exact E1|]. split; [exact E2|].
  split; [|split; [|split]].
  - rewrite nth_update_same, E1; [reflexivity|].
    rewrite !length_app. cbn [length]. lia.
  - rewrite nth_update_other by congruence. exact E2.
  - rewrite nth_update_same, E2; [reflexivity|].
    rewrite !length_app. cbn [length]. lia.
  - rewrite nth_update_other by congruence. exact E1.
Qed.
